(** * analyzer.py: tweak configuration generator

    A shallow embedding of [scripts/analyzer.py] and the properties of its
    three parts: identifier normalization, the per-tweak metadata resolver
    ([analyze_tweak]) and the build order planner ([topological_sort]),
    together with the header aggregation done by [main].

    Modelling conventions.
    - A Python [str] is a [string]: the bytes of its UTF-8 encoding.  The
      characters the program splits on and removes are ASCII, so these
      operations are the same on bytes as on code points, and the order
      of [sorted] is the same on bytes as on code points.
    - [str.lower] is Unicode case mapping, a builtin whose tables are not
      part of the program.  The program is modelled for whatever function
      it is (the class [Py.Lower]); where a property needs something of
      it, the property says so ([lower_spec]).
    - A Python [dict] used as a map is a [gmap], a [set] is a [gset]; an
      optional key of a record is an [option] field.
    - The order in which Python iterates over a [set] of strings is not
      specified (string hashing is randomised per process).  Every function
      that iterates over a set takes that order as the parameter [set_iter];
      the only thing known about it is [set_iter_spec].
    - Progress messages are not modelled, except for the cycle warning of
      the planner, which is returned as a flag next to the ordering. *)

From Stdlib Require Import Ascii String ZArith.
From stdpp Require Import gmap strings list sorting relations.

Local Open Scope string_scope.
Local Open Scope list_scope.

(** ** Python string primitives *)

Module Py.

(** [s.split(sep)] for a one-character separator: never empty. *)
Fixpoint split (sep : ascii) (s : string) : list string :=
  match s with
  | EmptyString => [EmptyString]
  | String c s' =>
      if Ascii.eqb c sep then EmptyString :: split sep s'
      else match split sep s' with
           | [] => [String c EmptyString]
           | w :: ws => String c w :: ws
           end
  end.

(** [l[-1]] on a list of strings.  On the empty list Python raises; [split]
    never produces it ([split_nonempty] below), so the default is never
    taken where the program uses this. *)
Definition last_item (l : list string) : string := default EmptyString (last l).

(** [s.replace(c, empty)] for a one-character [c]: all occurrences go. *)
Fixpoint remove_char (c : ascii) (s : string) : string :=
  match s with
  | EmptyString => EmptyString
  | String a s' =>
      if Ascii.eqb a c then remove_char c s' else String a (remove_char c s')
  end.

(** [c.lower()] on one byte: 'A'..'Z' move to 'a'..'z'. *)
Definition lower_ascii (c : ascii) : ascii :=
  let n := N_of_ascii c in
  if ((65 <=? n) && (n <=? 90))%N then ascii_of_N (n + 32) else c.

(** [s.lower()] on a string of ASCII characters. *)
Fixpoint ascii_lower (s : string) : string :=
  match s with
  | EmptyString => EmptyString
  | String a s' => String (lower_ascii a) (ascii_lower s')
  end.

(** [s.lower()], the builtin: a parameter of the program. *)
Class Lower : Type := lower : string → string.

(** The builtin on ASCII strings, for running the program on them. *)
Definition ascii_Lower : Lower := ascii_lower.

(** [c in s] for a one-character [c]. *)
Fixpoint occurs (c : ascii) (s : string) : bool :=
  match s with
  | EmptyString => false
  | String a s' => Ascii.eqb a c || occurs c s'
  end.

(** [sorted(l)] on strings: ascending in the byte-wise lexicographic order. *)
Definition sorted (l : list string) : list string := merge_sort String.le l.

(** Strict lexicographic order, for lists without repetition. *)
Definition str_lt (a b : string) : Prop := String.le a b ∧ a ≠ b.

End Py.

(** ** Utility functions *)

(** [normalize_id(repo)]: 'Owner/RepoName' to 'reponame'. *)
Definition normalize_id `{!Py.Lower} (repo : string) : string :=
  let name := Py.last_item (Py.split "/" repo) in
  Py.lower (Py.remove_char "." (Py.remove_char "_" (Py.remove_char "-" name))).

(** [make_id(repo)] *)
Definition make_id `{!Py.Lower} (repo : string) : string := normalize_id repo.


(** ** Configuration *)

Definition DEFAULT_BUILD_CMD : string := "make clean package DEBUG=0 FINALPACKAGE=1".

(** The hardcoded lookup tables of the script.  The functions below read
    them through this record, so every property is proved for whatever the
    tables contain; [analyzer_tables] is their content in the source. *)
Record tables : Type := Tables {
  KNOWN_DEPENDENCIES : gmap string (list string);
  HEADER_DEPENDENCIES : gmap string (list string);
  HEADER_REPOS : gmap string string;
  HAS_RELEASES : gset string;
  SPECIAL_BUILD_CMDS : gmap string string;
  APPEX_REPOS : gset string;
  SKIPPED_TWEAKS : gmap string string;
  DEB_FILTERS : gmap string (gmap string string);
  PRE_BUILD_CMDS : gmap string string }.

Definition analyzer_tables : tables := {|
  KNOWN_DEPENDENCIES := list_to_map [
    ("youpip", ["ytvideooverlay"]);
    ("youtimestamp", ["ytvideooverlay"]);
    ("youquality", ["ytvideooverlay"]);
    ("youmute", ["ytvideooverlay"]);
    ("youspeed", ["ytvideooverlay"]) ];
  HEADER_DEPENDENCIES := list_to_map [
    ("ytlite", ["YouTubeHeader"; "PSHeader"]);
    ("youtimestamp", ["YouTubeHeader"]);
    ("youpip", ["YouTubeHeader"]);
    ("youquality", ["YouTubeHeader"]);
    ("youmute", ["YouTubeHeader"]);
    ("youspeed", ["YouTubeHeader"]);
    ("ytvideooverlay", ["YouTubeHeader"]);
    ("returnyoutubedislikes", ["YouTubeHeader"]);
    ("ytuhd", ["YouTubeHeader"]);
    ("youtubeextensions", ["YouTubeHeader"; "PSHeader"]);
    ("openyoutubesafariextension", ["YouTubeHeader"]);
    ("donteatmycontent", ["YouTubeHeader"; "YTHeaders"]);
    ("ytnohovercards", ["YouTubeHeader"]);
    ("ytab", ["YouTubeHeader"]);
    ("ytnoshorts", ["YouTubeHeader"]);
    ("ytclassicvideoquality", ["YouTubeHeader"]);
    ("ytnocommunityguidelinesendscreen", ["YouTubeHeader"]) ];
  HEADER_REPOS := list_to_map [
    ("YouTubeHeader", "https://github.com/PoomSmart/YouTubeHeader.git");
    ("PSHeader", "https://github.com/PoomSmart/PSHeader.git");
    ("YTHeaders", "https://github.com/therealFoxster/YTHeaders.git") ];
  HAS_RELEASES := list_to_set ["ytlite"; "returnyoutubedislikes"];
  SPECIAL_BUILD_CMDS := list_to_map [
    ("ytuhd", "make clean package DEBUG=0 FINALPACKAGE=1 SIDELOAD=1") ];
  APPEX_REPOS := list_to_set ["youtubeextensions"; "openyoutubesafariextension"];
  SKIPPED_TWEAKS := list_to_map [
    ("youtimestamp", "incompatible with current YouTubeHeader (tintImage:color: and createButton:accessibilityLabel:selector: removed)") ];
  DEB_FILTERS := list_to_map [
    ("ytlite", list_to_map [("deb_filter", "iphoneos-arm64"); ("deb_exclude", "roothide")]);
    ("returnyoutubedislikes", list_to_map [("deb_exclude", "roothide")]) ];
  PRE_BUILD_CMDS := list_to_map [
    ("youtimestamp", "sed -i '' 's/initYTVideoOverlay(TweakKey);/initYTVideoOverlay(TweakKey, nil);/' Tweak.x") ]
|}.

(** ** Configuration Records *)

(** The dict returned by [analyze_tweak]: three keys are always set, the
    other six are set or absent. *)
Module Cfg.
Record t : Type := Make {
  id : string;
  repo : string;
  fetch : string;
  build_cmd : option string;
  deb_filter : option string;
  deb_exclude : option string;
  depends_on : option (list string);
  pre_build_cmd : option string;
  headers : option (list string) }.

Global Instance eq_dec : EqDecision t.
Proof. solve_decision. Defined.

(** [cfg.get(key, [])] for the two list-valued keys. *)
Definition get_depends_on (cfg : t) : list string := default [] (depends_on cfg).
Definition get_headers (cfg : t) : list string := default [] (headers cfg).
End Cfg.

(** Python truth value of a list, and of a value that is [None] or a string. *)
Definition truthy_list {A} (l : list A) : bool :=
  match l with [] => false | _ :: _ => true end.

Definition truthy_opt_str (o : option string) : bool :=
  match o with
  | None => false
  | Some EmptyString => false
  | Some (String _ _) => true
  end.

(** ** Simple analyzer *)

(** [analyze_tweak(repo, all_tweaks)] *)
Definition analyze_tweak `{!Py.Lower} (T : tables) (repo : string)
    (all_tweaks : gmap string string) : Cfg.t :=
  let tweak_id := make_id repo in
  let fetch :=
    if decide (tweak_id ∈ HAS_RELEASES T) then "release"
    else if decide (tweak_id ∈ APPEX_REPOS T) then "appex"
    else "build" in
  let build_cmd := default DEFAULT_BUILD_CMD (SPECIAL_BUILD_CMDS T !! tweak_id) in
  let depends_on := default [] (KNOWN_DEPENDENCIES T !! tweak_id) in
  let headers := default ["YouTubeHeader"] (HEADER_DEPENDENCIES T !! tweak_id) in
  let deb_opts : gmap string string := default ∅ (DEB_FILTERS T !! tweak_id) in
  let pre_build_cmd := PRE_BUILD_CMDS T !! tweak_id in
  {| Cfg.id := tweak_id;
     Cfg.repo := repo;
     Cfg.fetch := fetch;
     Cfg.build_cmd :=
       if decide (fetch = "build") then Some build_cmd else None;
     Cfg.deb_filter :=
       if decide (fetch = "release" ∧ deb_opts ≠ ∅)
       then deb_opts !! "deb_filter" else None;
     Cfg.deb_exclude :=
       if decide (fetch = "release" ∧ deb_opts ≠ ∅)
       then deb_opts !! "deb_exclude" else None;
     Cfg.depends_on :=
       if truthy_list depends_on then Some depends_on else None;
     Cfg.pre_build_cmd :=
       if truthy_opt_str pre_build_cmd then pre_build_cmd else None;
     Cfg.headers :=
       if truthy_list headers then Some headers else None |}.

(** ** Build order planner *)

(** The first loop of [topological_sort]: [graph] maps every identifier to
    the set of its declared dependencies (a later record with the same
    identifier replaces an earlier one), [all_ids] collects the identifiers. *)
Definition build_graph (configs : list Cfg.t) : gmap string (gset string) * gset string :=
  foldl (λ '(graph, all_ids) cfg,
           let tweak_id := Cfg.id cfg in
           (<[tweak_id := list_to_set (Cfg.get_depends_on cfg)]> graph,
            all_ids ∪ {[tweak_id]}))
        (∅, ∅) configs.

(** [graph.get(other, set())] *)
Definition graph_get (graph : gmap string (gset string)) (other : string) : gset string :=
  default ∅ (graph !! other).

(** The variables of the [while] loop. *)
Record kahn_state : Type := KahnState {
  in_degree : gmap string Z;
  queue : list string;
  result : list string }.

(** [{node: len(graph[node]) for node in all_ids}], filled in the order
    [nodes] in which the set is iterated.  Every node is a key of [graph],
    so the subscript does not raise. *)
Definition initial_in_degree (graph : gmap string (gset string))
    (nodes : list string) : gmap string Z :=
  foldl (λ d node, <[node := Z.of_nat (size (graph_get graph node))]> d) ∅ nodes.

(** [[node for node in all_ids if in_degree[node] == 0]] *)
Definition initial_queue (in_degree : gmap string Z) (nodes : list string) : list string :=
  filter (λ node, in_degree !!! node = 0%Z) nodes.

(** One round of the inner [for other in all_ids] loop.  [other] is a key
    of [in_degree] whenever the loop runs ([planner_inv]), so the subscript
    does not raise. *)
Definition relax (graph : gmap string (gset string)) (node : string)
    (dq : gmap string Z * list string) (other : string) : gmap string Z * list string :=
  let '(in_degree, queue) := dq in
  if decide (node ∈ graph_get graph other) then
    let d := (in_degree !!! other - 1)%Z in
    let in_degree := <[other := d]> in_degree in
    if decide (d = 0%Z) then (in_degree, queue ++ [other]) else (in_degree, queue)
  else (in_degree, queue).

(** The body of the [while] loop: sort the queue, pop its head, append it
    to the result and relax every node.  The loop enters the body with a
    non-empty queue only; on an empty one the state is left as it is. *)
Definition kahn_body (graph : gmap string (gset string)) (nodes : list string)
    (st : kahn_state) : kahn_state :=
  match Py.sorted (queue st) with
  | [] => st
  | node :: rest =>
      let '(in_degree, queue) := foldl (relax graph node) (in_degree st, rest) nodes in
      {| in_degree := in_degree; queue := queue; result := result st ++ [node] |}
  end.

(** [while queue: ...], bounded by [fuel] rounds; [None] when the bound is
    hit before the queue is empty. *)
Fixpoint kahn_loop (graph : gmap string (gset string)) (nodes : list string)
    (fuel : nat) (st : kahn_state) : option kahn_state :=
  match queue st with
  | [] => Some st
  | _ :: _ =>
      match fuel with
      | O => None
      | S fuel => kahn_loop graph nodes fuel (kahn_body graph nodes st)
      end
  end.

(** [topological_sort(configs)].  Returns the ordering and whether the
    circular-dependency warning was printed.  [set_iter] is the order in
    which a set is iterated.  The loop gets one round per identifier and one
    more, which is never used up ([topological_sort_returns]). *)
Definition topological_sort (set_iter : gset string → list string)
    (configs : list Cfg.t) : option (list string * bool) :=
  let '(graph, all_ids) := build_graph configs in
  let nodes := set_iter all_ids in
  let in_degree := initial_in_degree graph nodes in
  let queue := initial_queue in_degree nodes in
  st ← kahn_loop graph nodes (S (length nodes))
         {| in_degree := in_degree; queue := queue; result := [] |};
  if decide (length (result st) ≠ size all_ids)
  then Some (Py.sorted (set_iter all_ids), true)
  else Some (result st, false).

(** ** Header aggregation *)

(** [collect_all_headers(configs)] *)
Definition collect_all_headers (set_iter : gset string → list string)
    (configs : list Cfg.t) : list string :=
  let all_headers : gset string :=
    foldl (λ all_headers cfg,
             all_headers ∪ list_to_set (Cfg.get_headers cfg))
          ∅ configs in
  Py.sorted (set_iter all_headers).

(** ** Main *)

Record metadata : Type := Metadata {
  total_tweaks : nat;
  successfully_analyzed : nat;
  required_headers : list string }.

(** The document written back to [config.json], and whether the planner
    printed its warning on the way. *)
Record output : Type := Output {
  out_tweakslist : list string;
  out_config : list Cfg.t;
  out_build_order : list string;
  out_headers : gmap string string;
  out_metadata : metadata;
  out_cycle_warning : bool }.

Inductive outcome (A : Type) : Type :=
  | Returned (a : A)
  | Exited (code : Z)
  | OutOfFuel.
Arguments Returned {A} a.
Arguments Exited {A} code.
Arguments OutOfFuel {A}.

(** The filter loop of [main]: the skipped references with their reasons,
    and the active ones, both in input order. *)
Definition split_skipped `{!Py.Lower} (T : tables) (tweakslist : list string)
    : list (string * string) * list string :=
  foldl (λ '(skipped, active_tweakslist) repo,
           let tid := make_id repo in
           match SKIPPED_TWEAKS T !! tid with
           | Some reason => (skipped ++ [(repo, reason)], active_tweakslist)
           | None => (skipped, active_tweakslist ++ [repo])
           end)
        ([], []) tweakslist.

(** The header registry lookup loop of [main]. *)
Definition resolve_headers (T : tables) (required_headers : list string)
    : gmap string string :=
  foldl (λ header_config header,
           match HEADER_REPOS T !! header with
           | Some location => <[header := location]> header_config
           | None => header_config
           end)
        ∅ required_headers.

(** [main()], from the point where [tweakslist] has been read from the
    configuration file (a missing file exits with status 1 before that).
    [analyze_tweak] is a total function, so the handler around it, which
    exits with status 1, is never entered. *)
Definition main `{!Py.Lower} (T : tables) (set_iter : gset string → list string)
    (tweakslist : list string) : outcome output :=
  if truthy_list tweakslist then
    let '(skipped, active_tweakslist) := split_skipped T tweakslist in
    let tweakslist := active_tweakslist in
    let all_tweaks : gmap string string :=
      foldl (λ m repo, <[make_id repo := repo]> m) ∅ tweakslist in
    let configs := (λ repo, analyze_tweak T repo all_tweaks) <$> tweakslist in
    match topological_sort set_iter configs with
    | None => OutOfFuel
    | Some (build_order, warned) =>
        let required_headers := collect_all_headers set_iter configs in
        let header_config := resolve_headers T required_headers in
        Returned {|
          out_tweakslist := tweakslist;
          out_config := configs;
          out_build_order := build_order;
          out_headers := header_config;
          out_metadata := {|
            total_tweaks := length tweakslist;
            successfully_analyzed := length configs;
            required_headers := required_headers |};
          out_cycle_warning := warned |}
    end
  else Exited 1.

(** The record [{id: x, depends_on: deps}] of a graph given as (identifier,
    dependencies) pairs; the planner reads these two keys only. *)
Definition record_of (p : string * list string) : Cfg.t :=
  {| Cfg.id := p.1; Cfg.repo := p.1; Cfg.fetch := "build";
     Cfg.build_cmd := Some DEFAULT_BUILD_CMD;
     Cfg.deb_filter := None; Cfg.deb_exclude := None;
     Cfg.depends_on := Some p.2;
     Cfg.pre_build_cmd := None;
     Cfg.headers := Some ["YouTubeHeader"] |}.


(** * Vocabulary of the properties *)

(** A character that is not a letter is neither created nor removed by
    lowering. *)
Definition caseless (d : ascii) : Prop :=
  ∀ a, Ascii.eqb (Py.lower_ascii a) d = Ascii.eqb a d.

(** [lower] does not create the character [c]. *)
Definition keeps_out (L : Py.Lower) (c : ascii) : Prop :=
  ∀ s, Py.occurs c s = false → Py.occurs c (Py.lower s) = false.

(** What the properties of normalization need of [str.lower]: lowering
    twice is lowering once, and lowering creates no slash, dash, underscore
    or dot.  Both hold of the builtin: it maps code point by code point
    (but for the capital sigma, which becomes one of the two small ones),
    every image is a fixed point, and no image holds one of the four
    characters. *)
Definition lower_spec (L : Py.Lower) : Prop :=
  (∀ s, Py.lower (Py.lower s) = Py.lower s) ∧
  keeps_out L "/" ∧ keeps_out L "-" ∧ keeps_out L "_" ∧ keeps_out L ".".

(** What a normalized identifier looks like: no path separator, none of
    the three stripped characters, and already in lower case. *)
Definition normal `{!Py.Lower} (s : string) : Prop :=
  Py.occurs "/" s = false ∧ Py.occurs "-" s = false ∧
  Py.occurs "_" s = false ∧ Py.occurs "." s = false ∧ Py.lower s = s.

(** What is known of the order in which a set is iterated: it lists the
    elements of the set, each once. *)
Definition set_iter_spec (set_iter : gset string → list string) : Prop :=
  ∀ s : gset string, set_iter s ≡ₚ elements s.

(** The identifiers of a list of records. *)
Definition record_ids (configs : list Cfg.t) : list string := Cfg.id <$> configs.

(** [depends configs x y]: some record of [x] lists [y] in [depends_on]. *)
Definition depends (configs : list Cfg.t) (x y : string) : Prop :=
  ∃ cfg, cfg ∈ configs ∧ Cfg.id cfg = x ∧ y ∈ Cfg.get_depends_on cfg.

(** The records form a set keyed by identifier: two records of one
    identifier declare the same dependencies. *)
Definition consistent (configs : list Cfg.t) : Prop :=
  ∀ c1 c2, c1 ∈ configs → c2 ∈ configs → Cfg.id c1 = Cfg.id c2 →
    ∀ y, y ∈ Cfg.get_depends_on c1 ↔ y ∈ Cfg.get_depends_on c2.

(** A cycle: an identifier reaches itself along one or more dependencies. *)
Definition cyclic (configs : list Cfg.t) : Prop :=
  ∃ x, tc (depends configs) x x.

Definition acyclic (configs : list Cfg.t) : Prop :=
  ∀ x, ¬ tc (depends configs) x x.

(** Every declared dependency is the identifier of a record. *)
Definition closed (configs : list Cfg.t) : Prop :=
  ∀ x y, depends configs x y → y ∈ record_ids configs.

(** [before l y x]: [y] occurs in [l] at a position strictly before one
    of [x]. *)
Definition before (l : list string) (y x : string) : Prop :=
  ∃ i j, l !! i = Some y ∧ l !! j = Some x ∧ i < j.

(** An ordering honours the dependencies of the records: every record's
    identifier comes strictly after each identifier it depends on. *)
Definition respects_dependencies (configs : list Cfg.t) (l : list string) : Prop :=
  ∀ cfg y, cfg ∈ configs → y ∈ Cfg.get_depends_on cfg → before l y (Cfg.id cfg).

(** An ordering lists the identifiers of the records, each exactly once. *)
Definition lists_each_id_once (configs : list Cfg.t) (l : list string) : Prop :=
  NoDup l ∧ ∀ x, x ∈ l ↔ x ∈ record_ids configs.

(** Strictly ascending in lexicographic order. *)
Definition ascending (l : list string) : Prop := StronglySorted Py.str_lt l.

(** The nodes that a round of the inner loop for [node] moves to the queue,
    given the counters [d] at its start. *)
Definition released (graph : gmap string (gset string)) (node : string)
    (d : gmap string Z) (x : string) : Prop :=
  node ∈ graph_get graph x ∧ (d !!! x - 1 = 0)%Z.

Global Instance released_dec graph node d x : Decision (released graph node d x).
Proof. unfold released. apply _. Defined.

(** Two loop states that differ in the order of the queue only. *)
Definition same_up_to_queue_order (st1 st2 : kahn_state) : Prop :=
  in_degree st1 = in_degree st2 ∧ queue st1 ≡ₚ queue st2 ∧ result st1 = result st2.

(** The loop invariant of the planner, for a graph whose nodes are
    [all_ids]: no node is in the result or the queue twice; a node is in one
    of them exactly when all its dependencies are in the result; the counter
    of a node is the number of its dependencies not yet in the result; and
    each node of the result comes after all its dependencies. *)
Definition planner_inv (graph : gmap string (gset string)) (all_ids : gset string)
    (st : kahn_state) : Prop :=
  NoDup (result st ++ queue st) ∧
  (∀ x, x ∈ result st ++ queue st ↔
        x ∈ all_ids ∧ graph_get graph x ⊆ list_to_set (result st)) ∧
  (∀ x, x ∈ all_ids →
        in_degree st !! x =
        Some (Z.of_nat (size (graph_get graph x ∖ list_to_set (result st))))) ∧
  (∀ j x y, result st !! j = Some x → y ∈ graph_get graph x →
            ∃ i, result st !! i = Some y ∧ i < j).

(** [x in SKIPPED_TWEAKS] *)
Definition skipped (T : tables) (x : string) : Prop :=
  is_Some (SKIPPED_TWEAKS T !! x).

(** What the planner is claimed to do on acyclic records: return an
    ordering of all identifiers that honours the dependencies. *)
Definition orders_by_dependency (set_iter : gset string → list string)
    (configs : list Cfg.t) : Prop :=
  ∃ order warned,
    topological_sort set_iter configs = Some (order, warned) ∧
    lists_each_id_once configs order ∧
    respects_dependencies configs order.

(** Tables like those of the source, with entries the source does not
    have: a deb filter for a "build" and for an "appex" identifier, and a
    build command for a "release" and for an "appex" identifier. *)
Definition tables_with_stray_entries : tables := {|
  KNOWN_DEPENDENCIES := KNOWN_DEPENDENCIES analyzer_tables;
  HEADER_DEPENDENCIES := HEADER_DEPENDENCIES analyzer_tables;
  HEADER_REPOS := HEADER_REPOS analyzer_tables;
  HAS_RELEASES := HAS_RELEASES analyzer_tables;
  SPECIAL_BUILD_CMDS :=
    <["ytlite" := "make package"]>
      (<["youtubeextensions" := "make package"]> (SPECIAL_BUILD_CMDS analyzer_tables));
  APPEX_REPOS := APPEX_REPOS analyzer_tables;
  SKIPPED_TWEAKS := SKIPPED_TWEAKS analyzer_tables;
  DEB_FILTERS :=
    <["ytuhd" := {["deb_filter" := "iphoneos-arm64"]}]>
      (<["youtubeextensions" := {["deb_exclude" := "roothide"]}]>
         (DEB_FILTERS analyzer_tables));
  PRE_BUILD_CMDS := PRE_BUILD_CMDS analyzer_tables
|}.

(** [sep.join(l)] for a one-character separator. *)
Definition join (sep : ascii) (l : list string) : string :=
  String.concat (String sep EmptyString) l.

(** The state in which the planner enters its loop. *)
Definition initial_state (graph : gmap string (gset string))
    (nodes : list string) : kahn_state :=
  {| in_degree := initial_in_degree graph nodes;
     queue := initial_queue (initial_in_degree graph nodes) nodes;
     result := [] |}.

(** [ready graph all_ids r x]: with the nodes [r] placed, [x] can be placed
    next: it is a node, not placed yet, and its dependencies are placed. *)
Definition ready (graph : gmap string (gset string)) (all_ids : gset string)
    (r : list string) (x : string) : Prop :=
  x ∈ all_ids ∧ (x ∉ r) ∧ graph_get graph x ⊆ list_to_set r.

(** Every entry of the result was a least node among those ready when it
    was placed. *)
Definition least_inv (graph : gmap string (gset string)) (all_ids : gset string)
    (st : kahn_state) : Prop :=
  ∀ k x y, result st !! k = Some x →
           ready graph all_ids (take k (result st)) y → String.le x y.

(** The output of [main] when nothing is left to analyze. *)
Definition empty_output : output :=
  {| out_tweakslist := []; out_config := []; out_build_order := [];
     out_headers := ∅;
     out_metadata := {| total_tweaks := 0; successfully_analyzed := 0;
                        required_headers := [] |};
     out_cycle_warning := false |}.

(** * Properties *)

(** ** Identifier normalization *)

Section Normalization.

Context `{L : !Py.Lower}.

Lemma split_nonempty sep s : Py.split sep s ≠ [].
Proof.
  destruct s as [|c s]; simpl; [done|].
  destruct (Ascii.eqb c sep); [done|]. by destruct (Py.split sep s).
Qed.

Lemma last_item_cons w ws : ws ≠ [] → Py.last_item (w :: ws) = Py.last_item ws.
Proof. unfold Py.last_item. by destruct ws. Qed.

(** The last field of a split does not contain the separator. *)
Lemma split_last_clean sep s :
  Py.occurs sep (Py.last_item (Py.split sep s)) = false.
Proof.
  induction s as [|c s IH]; simpl; [done|].
  destruct (Ascii.eqb c sep) eqn:Hc.
  - rewrite last_item_cons; [done | apply split_nonempty].
  - destruct (Py.split sep s) as [|w [|w' ws]] eqn:Hs.
    + by destruct (split_nonempty sep s).
    + unfold Py.last_item in *. simpl in *. by rewrite Hc.
    + rewrite last_item_cons by done. by rewrite last_item_cons in IH.
Qed.

(** Without a separator the split has one field, the string itself. *)
Lemma split_clean sep s : Py.occurs sep s = false → Py.split sep s = [s].
Proof.
  induction s as [|c s IH]; simpl; [done|].
  intros [Hc Hs]%orb_false_iff. rewrite Hc, IH; done.
Qed.

Lemma remove_char_clean c s : Py.occurs c s = false → Py.remove_char c s = s.
Proof.
  induction s as [|a s IH]; simpl; [done|].
  intros [Hc Hs]%orb_false_iff. by rewrite Hc, IH.
Qed.

Lemma occurs_remove_char_same c s : Py.occurs c (Py.remove_char c s) = false.
Proof.
  induction s as [|a s IH]; simpl; [done|].
  destruct (Ascii.eqb a c) eqn:Hc; simpl; [done|]. by rewrite Hc.
Qed.

Lemma occurs_remove_char d c s :
  Py.occurs d s = false → Py.occurs d (Py.remove_char c s) = false.
Proof.
  induction s as [|a s IH]; simpl; [done|].
  intros [Hd Hs]%orb_false_iff.
  destruct (Ascii.eqb a c); simpl; [auto|]. rewrite Hd. auto.
Qed.

Lemma lower_ascii_idemp a : Py.lower_ascii (Py.lower_ascii a) = Py.lower_ascii a.
Proof. by destruct a as [[] [] [] [] [] [] [] []]. Qed.

Lemma ascii_lower_idemp s :
  Py.ascii_lower (Py.ascii_lower s) = Py.ascii_lower s.
Proof.
  induction s as [|a s IH]; simpl; [done|]. by rewrite lower_ascii_idemp, IH.
Qed.

Lemma caseless_slash : caseless "/".
Proof. intros a. by destruct a as [[] [] [] [] [] [] [] []]. Qed.
Lemma caseless_dash : caseless "-".
Proof. intros a. by destruct a as [[] [] [] [] [] [] [] []]. Qed.
Lemma caseless_underscore : caseless "_".
Proof. intros a. by destruct a as [[] [] [] [] [] [] [] []]. Qed.
Lemma caseless_dot : caseless ".".
Proof. intros a. by destruct a as [[] [] [] [] [] [] [] []]. Qed.

Lemma occurs_ascii_lower d s :
  caseless d → Py.occurs d (Py.ascii_lower s) = Py.occurs d s.
Proof.
  intros Hd. induction s as [|a s IH]; simpl; [done|]. by rewrite Hd, IH.
Qed.

(** The lowering of ASCII strings has what [lower_spec] asks. *)
Lemma ascii_lower_spec : lower_spec Py.ascii_Lower.
Proof.
  split_and!; [apply ascii_lower_idemp|..]; intros s Hs;
    unfold Py.lower, Py.ascii_Lower; rewrite occurs_ascii_lower;
    auto using caseless_slash, caseless_dash, caseless_underscore, caseless_dot.
Qed.

Lemma normalize_id_normal repo : lower_spec L → normal (normalize_id repo).
Proof.
  intros (Hidemp & Hslash & Hdash & Hund & Hdot). unfold normal, normalize_id.
  split_and!.
  - apply Hslash. do 3 apply occurs_remove_char. apply split_last_clean.
  - apply Hdash. do 2 apply occurs_remove_char. apply occurs_remove_char_same.
  - apply Hund. apply occurs_remove_char. apply occurs_remove_char_same.
  - apply Hdot. apply occurs_remove_char_same.
  - apply Hidemp.
Qed.

Lemma normalize_id_fixes_normal s : normal s → normalize_id s = s.
Proof.
  intros (Hslash & Hdash & Hund & Hdot & Hlow). unfold normalize_id.
  rewrite split_clean by done. unfold Py.last_item. simpl.
  rewrite (remove_char_clean "-") by done.
  rewrite (remove_char_clean "_") by done.
  by rewrite (remove_char_clean ".").
Qed.

(** C8: [normalize_id] is idempotent: normalizing the identifier of any
    repository reference gives that identifier back.  Of the builtin
    [str.lower] this uses that lowering twice is lowering once and that
    lowering creates none of the characters that are split on or removed. *)
Theorem normalize_id_idempotent (repo : string) :
  lower_spec L →
  normalize_id (normalize_id repo) = normalize_id repo.
Proof. intros Hlower. by apply normalize_id_fixes_normal, normalize_id_normal. Qed.

End Normalization.

(** ** Metadata resolver *)

Section Resolver.

Context `{L : !Py.Lower}.
Context (T : tables).
Implicit Types (repo : string) (all_tweaks : gmap string string).

Lemma analyze_tweak_id repo all_tweaks :
  Cfg.id (analyze_tweak T repo all_tweaks) = make_id repo.
Proof. done. Qed.

Lemma analyze_tweak_repo repo all_tweaks :
  Cfg.repo (analyze_tweak T repo all_tweaks) = repo.
Proof. done. Qed.

(** The fetch method is decided by the two sets, the release set first. *)
Lemma analyze_tweak_fetch repo all_tweaks :
  let tid := make_id repo in
  let fetch := Cfg.fetch (analyze_tweak T repo all_tweaks) in
  (tid ∈ HAS_RELEASES T ∧ fetch = "release") ∨
  ((tid ∉ HAS_RELEASES T) ∧ tid ∈ APPEX_REPOS T ∧ fetch = "appex") ∨
  ((tid ∉ HAS_RELEASES T) ∧ (tid ∉ APPEX_REPOS T) ∧ fetch = "build").
Proof. simpl. repeat case_decide; auto. Qed.

(** The argument [all_tweaks] is not used. *)
Lemma analyze_tweak_all_tweaks repo all_tweaks all_tweaks' :
  analyze_tweak T repo all_tweaks = analyze_tweak T repo all_tweaks'.
Proof. done. Qed.

(** The declared dependencies depend on the identifier alone. *)
Lemma analyze_tweak_depends_on repo all_tweaks :
  Cfg.get_depends_on (analyze_tweak T repo all_tweaks)
  = default [] (KNOWN_DEPENDENCIES T !! make_id repo).
Proof.
  unfold Cfg.get_depends_on. simpl.
  by destruct (default [] (KNOWN_DEPENDENCIES T !! make_id repo)).
Qed.

(** When the fetch method is "release" the two deb fields are what the
    filter table has for the identifier. *)
Lemma analyze_tweak_deb_release repo all_tweaks :
  let cfg := analyze_tweak T repo all_tweaks in
  Cfg.fetch cfg = "release" →
  Cfg.deb_filter cfg = ((DEB_FILTERS T !! make_id repo) ≫= (.!! "deb_filter")) ∧
  Cfg.deb_exclude cfg = ((DEB_FILTERS T !! make_id repo) ≫= (.!! "deb_exclude")).
Proof.
  simpl. intros Hf. rewrite Hf.
  destruct (DEB_FILTERS T !! make_id repo) as [opts|]; simpl.
  - destruct (decide ("release" = "release" ∧ opts ≠ ∅)) as [_|H]; [done|].
    assert (opts = ∅) as -> by (destruct (decide (opts = ∅)); naive_solver).
    by rewrite !lookup_empty.
  - by destruct (decide ("release" = "release" ∧ (∅ : gmap string string) ≠ ∅))
      as [[_ []]|_].
Qed.

(** C4: an identifier found in none of the tables the resolver reads
    resolves to the record of defaults: fetch method "build", the default
    build command, the single header YouTubeHeader, and none of the keys
    depends_on, deb_filter, deb_exclude and pre_build_cmd.  The resolver is
    a total function: no identifier makes it fail. *)
Theorem analyze_tweak_unknown repo all_tweaks :
  let tid := make_id repo in
  tid ∉ HAS_RELEASES T →
  tid ∉ APPEX_REPOS T →
  SPECIAL_BUILD_CMDS T !! tid = None →
  KNOWN_DEPENDENCIES T !! tid = None →
  HEADER_DEPENDENCIES T !! tid = None →
  DEB_FILTERS T !! tid = None →
  PRE_BUILD_CMDS T !! tid = None →
  analyze_tweak T repo all_tweaks =
    {| Cfg.id := tid;
       Cfg.repo := repo;
       Cfg.fetch := "build";
       Cfg.build_cmd := Some DEFAULT_BUILD_CMD;
       Cfg.deb_filter := None;
       Cfg.deb_exclude := None;
       Cfg.depends_on := None;
       Cfg.pre_build_cmd := None;
       Cfg.headers := Some ["YouTubeHeader"] |}.
Proof.
  intros tid Hrel Happ Hcmd Hdep Hhdr Hdeb Hpre. unfold analyze_tweak.
  fold tid. rewrite Hcmd, Hdep, Hhdr, Hdeb, Hpre. simpl.
  rewrite (decide_False (P := tid ∈ HAS_RELEASES T)) by done.
  rewrite (decide_False (P := tid ∈ APPEX_REPOS T)) by done.
  rewrite decide_True by done.
  by rewrite decide_False by (by intros [? _]).
Qed.

(** C6: whatever the tables hold, a record whose fetch method is not
    "release" has neither a deb_filter nor a deb_exclude key; the entry the
    filter table may have for its identifier is dropped. *)
Theorem deb_fields_only_for_release repo all_tweaks :
  let cfg := analyze_tweak T repo all_tweaks in
  Cfg.fetch cfg ≠ "release" →
  Cfg.deb_filter cfg = None ∧ Cfg.deb_exclude cfg = None.
Proof.
  simpl. intros Hf.
  rewrite !(decide_False (P := _ ∧ _)) by (by intros [? _]). done.
Qed.

(** C10: the record has a build_cmd key exactly when its fetch method is
    "build"; a "release" or an "appex" record has none, whatever the
    build command table holds for its identifier. *)
Theorem build_cmd_iff_build repo all_tweaks :
  let cfg := analyze_tweak T repo all_tweaks in
  (is_Some (Cfg.build_cmd cfg) ↔ Cfg.fetch cfg = "build") ∧
  (Cfg.fetch cfg = "release" ∨ Cfg.fetch cfg = "appex" → Cfg.build_cmd cfg = None).
Proof.
  simpl. split.
  - case_decide as H; [by split; eauto|]. split; [by intros [? ?]|done].
  - intros [H|H]; rewrite H; done.
Qed.

(** Records resolved from references are consistent: the dependencies are
    looked up by identifier. *)
Lemma analyze_tweak_consistent (tweakslist : list string) all_tweaks :
  consistent ((λ repo, analyze_tweak T repo all_tweaks) <$> tweakslist).
Proof.
  intros c1 c2 (r1 & -> & _)%list_elem_of_fmap (r2 & -> & _)%list_elem_of_fmap Hid y.
  rewrite !analyze_tweak_depends_on. rewrite !analyze_tweak_id in Hid. by rewrite Hid.
Qed.

End Resolver.

(** With the tables of the source no record depends on an excluded
    identifier. *)
Lemma analyzer_tables_no_skipped_dependency `{!Py.Lower} repo all_tweaks y :
  y ∈ Cfg.get_depends_on (analyze_tweak analyzer_tables repo all_tweaks) →
  ¬ skipped analyzer_tables y.
Proof.
  rewrite analyze_tweak_depends_on.
  assert (map_Forall (λ _ deps, Forall (λ y, ¬ skipped analyzer_tables y) deps)
            (KNOWN_DEPENDENCIES analyzer_tables)) as Hall by (by compute_done).
  destruct (KNOWN_DEPENDENCIES analyzer_tables !! make_id repo) as [deps|] eqn:Hdeps;
    simpl; [|by intros ?%elem_of_nil].
  intros Hy. apply Hall in Hdeps. by eapply Forall_forall in Hdeps.
Qed.

(** ** Sorting *)

Section Sorting.

Lemma sorted_perm l : Py.sorted l ≡ₚ l.
Proof. apply merge_sort_Permutation. Qed.

Lemma sorted_Sorted l : Sorted String.le (Py.sorted l).
Proof. apply (Sorted_merge_sort String.le). Qed.

(** The sorted list is a function of the elements, not of their order. *)
Lemma sorted_ext l1 l2 : l1 ≡ₚ l2 → Py.sorted l1 = Py.sorted l2.
Proof.
  intros Hp. apply (Sorted_unique String.le); try apply sorted_Sorted.
  by rewrite !sorted_perm.
Qed.

Lemma sorted_nil_inv l : Py.sorted l = [] → l = [].
Proof. intros H. apply Permutation_nil_r. by rewrite <-H, sorted_perm. Qed.

Lemma sorted_elem_of x l : x ∈ Py.sorted l ↔ x ∈ l.
Proof. by rewrite sorted_perm. Qed.

Lemma sorted_NoDup l : NoDup l → NoDup (Py.sorted l).
Proof. by rewrite sorted_perm. Qed.

(** The head of the sorted queue is a smallest element of the queue. *)
Lemma sorted_head_least l node rest :
  Py.sorted l = node :: rest → node ∈ l ∧ ∀ x, x ∈ l → String.le node x.
Proof.
  intros Hs. split.
  - apply sorted_elem_of. rewrite Hs. left.
  - intros x Hx%sorted_elem_of.
    pose proof (sorted_Sorted l) as Hsorted. rewrite Hs in *.
    apply (Sorted_StronglySorted String.le) in Hsorted.
    apply StronglySorted_inv in Hsorted as [_ Hall].
    apply elem_of_cons in Hx as [->|Hx]; [done|].
    by eapply Forall_forall in Hall.
Qed.

(** Without repetition, sorted means strictly ascending. *)
Lemma sorted_ascending l : NoDup l → ascending (Py.sorted l).
Proof.
  intros Hnd%sorted_NoDup.
  pose proof (Sorted_StronglySorted String.le _ (sorted_Sorted l)) as Hs.
  unfold ascending. induction Hs as [|x k Hk IH Hall]; [constructor|].
  apply NoDup_cons in Hnd as [Hx Hnd]. constructor; [by apply IH|].
  apply Forall_forall. intros y Hy. split.
  - by eapply Forall_forall in Hall.
  - by intros ->.
Qed.

End Sorting.

(** ** The inner loop of the planner *)

Section Relax.

Context (graph : gmap string (gset string)) (node : string).

Lemma filter_ext_elem_of {A} (P Q : A → Prop)
    `{!∀ x, Decision (P x), !∀ x, Decision (Q x)} (l : list A) :
  (∀ x, x ∈ l → P x ↔ Q x) → filter P l = filter Q l.
Proof.
  induction l as [|a l IH]; intros HPQ; [done|].
  rewrite !filter_cons.
  rewrite IH by (intros x Hx; apply HPQ; by right).
  destruct (decide (P a)) as [HP|HP], (decide (Q a)) as [HQ|HQ]; try done.
  - destruct HQ. apply HPQ; [left|done].
  - destruct HP. apply HPQ; [left|done].
Qed.

(** The inner loop over distinct nodes, in closed form: each dependent of
    [node] has its counter decremented once, and the dependents whose
    counter reaches zero are appended to the queue in iteration order. *)
Lemma relax_fold nodes d q :
  NoDup nodes →
  ∃ d', foldl (relax graph node) (d, q) nodes
          = (d', q ++ filter (released graph node d) nodes) ∧
        ∀ x, d' !! x = if decide (x ∈ nodes ∧ node ∈ graph_get graph x)
                       then Some (d !!! x - 1)%Z else d !! x.
Proof.
  revert d q. induction nodes as [|a l IH]; intros d q Hnd.
  { exists d. split; [by rewrite app_nil_r|]. intros x.
    rewrite decide_False; [done|]. intros [H _]. by apply elem_of_nil in H. }
  apply NoDup_cons in Hnd as [Ha Hl]. simpl foldl.
  assert (∀ d1, (∀ x, x ≠ a → d1 !! x = d !! x) →
                filter (released graph node d1) l = filter (released graph node d) l) as Hfilter.
  { intros d1 Hd1. apply filter_ext_elem_of. intros x Hx. unfold released.
    rewrite !lookup_total_alt, Hd1; [done|]. by intros ->. }
  destruct (decide (node ∈ graph_get graph a)) as [Hdep|Hdep].
  - set (d1 := <[a := (d !!! a - 1)%Z]> d).
    assert (∀ x, x ≠ a → d1 !! x = d !! x) as Hd1
      by (intros x Hx; unfold d1; by rewrite lookup_insert_ne).
    assert (∀ (x : string) (d' : gmap string Z),
      (d' !! x = if decide (x ∈ l ∧ node ∈ graph_get graph x)
                 then Some (d1 !!! x - 1)%Z else d1 !! x) →
      d' !! x = if decide (x ∈ a :: l ∧ node ∈ graph_get graph x)
                then Some (d !!! x - 1)%Z else d !! x) as Hlookup.
    { intros x d' ->. destruct (decide (x = a)) as [->|Hx].
      - rewrite decide_False by (by intros [? _]).
        rewrite decide_True by (split; [left|done]).
        unfold d1. by rewrite lookup_insert_eq.
      - rewrite !lookup_total_alt, Hd1 by done.
        destruct (decide (x ∈ l ∧ _)) as [[? ?]|Hn].
        + rewrite decide_True; [done|]. split; [by right|done].
        + rewrite decide_False; [done|]. intros [[?|?]%elem_of_cons ?]; naive_solver. }
    destruct (decide ((d !!! a - 1)%Z = 0%Z)) as [Hz|Hz].
    + destruct (IH d1 (q ++ [a]) Hl) as (d' & -> & Hd'). exists d'. split.
      * rewrite Hfilter by done. rewrite filter_cons_True by done.
        by rewrite <-app_assoc.
      * intros x. by apply Hlookup.
    + destruct (IH d1 q Hl) as (d' & -> & Hd'). exists d'. split.
      * rewrite Hfilter by done. rewrite filter_cons_False; [done|].
        by intros [_ ?].
      * intros x. by apply Hlookup.
  - destruct (IH d q Hl) as (d' & -> & Hd'). exists d'. split.
    + rewrite filter_cons_False; [done|]. by intros [? _].
    + intros x. rewrite Hd'. destruct (decide (x = a)) as [->|Hx].
      * rewrite !decide_False; [done|by intros [_ ?]|by intros [? _]].
      * destruct (decide (x ∈ l ∧ _)) as [[? ?]|Hn].
        -- rewrite decide_True; [done|]. split; [by right|done].
        -- rewrite decide_False; [done|].
           intros [[?|?]%elem_of_cons ?]; naive_solver.
Qed.

(** Two iteration orders of one set of nodes leave the same counters and
    the same queue up to order. *)
Lemma relax_fold_perm nodes1 nodes2 d q1 q2 :
  NoDup nodes1 → nodes1 ≡ₚ nodes2 → q1 ≡ₚ q2 →
  ∃ d' q1' q2',
    foldl (relax graph node) (d, q1) nodes1 = (d', q1') ∧
    foldl (relax graph node) (d, q2) nodes2 = (d', q2') ∧
    q1' ≡ₚ q2'.
Proof.
  intros Hnd Hp Hq.
  assert (NoDup nodes2) as Hnd2 by (by rewrite <-Hp).
  destruct (relax_fold nodes1 d q1 Hnd) as (d1 & -> & Hd1).
  destruct (relax_fold nodes2 d q2 Hnd2) as (d2 & -> & Hd2).
  assert (d1 = d2) as ->.
  { apply map_eq. intros x. rewrite Hd1, Hd2.
    destruct (decide (x ∈ nodes1 ∧ _)) as [[H1 ?]|Hn].
    - rewrite decide_True; [done|]. split; [by rewrite <-Hp|done].
    - rewrite decide_False; [done|]. intros [H2 ?]. apply Hn.
      split; [by rewrite Hp|done]. }
  eexists _, _, _. split_and!; [done..|]. by rewrite Hq, Hp.
Qed.

End Relax.

(** ** The planner does not depend on iteration order *)

Section Determinism.

Context (graph : gmap string (gset string)).

Lemma kahn_body_perm nodes1 nodes2 st1 st2 :
  NoDup nodes1 → nodes1 ≡ₚ nodes2 →
  same_up_to_queue_order st1 st2 →
  same_up_to_queue_order (kahn_body graph nodes1 st1) (kahn_body graph nodes2 st2).
Proof.
  intros Hnd Hp (Hd & Hq & Hr). unfold kahn_body.
  rewrite <-(sorted_ext _ _ Hq).
  destruct (Py.sorted (queue st1)) as [|node rest]; [done|].
  destruct (relax_fold_perm graph node nodes1 nodes2 (in_degree st1) rest rest)
    as (d' & q1' & q2' & H1 & H2 & Hq'); [done..|].
  rewrite <-Hd, H1, H2. split_and!; simpl; [done..|]. by rewrite Hr.
Qed.

Lemma kahn_loop_perm nodes1 nodes2 fuel st1 st2 :
  NoDup nodes1 → nodes1 ≡ₚ nodes2 →
  same_up_to_queue_order st1 st2 →
  option_Forall2 same_up_to_queue_order
    (kahn_loop graph nodes1 fuel st1) (kahn_loop graph nodes2 fuel st2).
Proof.
  intros Hnd Hp. revert st1 st2.
  induction fuel as [|fuel IH]; intros st1 st2 Hst;
    pose proof Hst as (_ & Hq & _); simpl;
    destruct (queue st1) as [|x1 q1] eqn:Hq1, (queue st2) as [|x2 q2] eqn:Hq2;
    try (by constructor);
    try (by apply Permutation_nil_cons in Hq);
    try (by symmetry in Hq; apply Permutation_nil_cons in Hq).
  apply IH. by apply kahn_body_perm.
Qed.

(** Each round of the loop moves a least element of the queue to the end
    of the result. *)
Lemma kahn_body_pops_least nodes st :
  queue st ≠ [] →
  ∃ node, result (kahn_body graph nodes st) = result st ++ [node] ∧
          node ∈ queue st ∧ ∀ x, x ∈ queue st → String.le node x.
Proof.
  intros Hq. unfold kahn_body.
  destruct (Py.sorted (queue st)) as [|node rest] eqn:Hs.
  { by apply sorted_nil_inv in Hs. }
  destruct (foldl _ _ _) as [d' q']. exists node. split; [done|].
  by apply sorted_head_least in Hs.
Qed.

Lemma initial_in_degree_lookup nodes x :
  initial_in_degree graph nodes !! x =
  if decide (x ∈ nodes) then Some (Z.of_nat (size (graph_get graph x))) else None.
Proof.
  unfold initial_in_degree.
  induction nodes as [|a l IH] using rev_ind.
  { simpl. rewrite lookup_empty. by destruct (decide (x ∈ [])) as [?%elem_of_nil|]. }
  rewrite foldl_snoc. destruct (decide (a = x)) as [->|Hne].
  - rewrite lookup_insert_eq. rewrite decide_True; [done|].
    apply elem_of_app. right. left.
  - rewrite lookup_insert_ne by done. rewrite IH.
    destruct (decide (x ∈ l)) as [Hx|Hx].
    + rewrite decide_True; [done|]. apply elem_of_app. by left.
    + rewrite decide_False; [done|].
      intros [?|?%list_elem_of_singleton]%elem_of_app; by subst.
Qed.

Lemma initial_in_degree_perm nodes1 nodes2 :
  nodes1 ≡ₚ nodes2 → initial_in_degree graph nodes1 = initial_in_degree graph nodes2.
Proof.
  intros Hp. apply map_eq. intros x. rewrite !initial_in_degree_lookup.
  assert (x ∈ nodes1 ↔ x ∈ nodes2) as Hx by (by rewrite Hp).
  destruct (decide (x ∈ nodes1)) as [H|H].
  - rewrite decide_True; [done|]. by apply Hx.
  - rewrite decide_False; [done|]. by rewrite <-Hx.
Qed.

End Determinism.

Lemma set_iter_NoDup set_iter (s : gset string) :
  set_iter_spec set_iter → NoDup (set_iter s).
Proof. intros H. rewrite (H s). apply NoDup_elements. Qed.

Lemma set_iter_elem_of set_iter (s : gset string) x :
  set_iter_spec set_iter → x ∈ set_iter s ↔ x ∈ s.
Proof. intros H. rewrite (H s). apply elem_of_elements. Qed.

Lemma set_iter_length set_iter (s : gset string) :
  set_iter_spec set_iter → length (set_iter s) = size s.
Proof. intros H. by rewrite (H s). Qed.

(** The planner returns the same whatever the order in which the set of
    identifiers is iterated. *)
Lemma topological_sort_iter_independent
    (set_iter1 set_iter2 : gset string → list string) (configs : list Cfg.t) :
  set_iter_spec set_iter1 → set_iter_spec set_iter2 →
  topological_sort set_iter1 configs = topological_sort set_iter2 configs.
Proof.
  intros H1 H2.
  unfold topological_sort. destruct (build_graph configs) as [graph all_ids].
  assert (set_iter1 all_ids ≡ₚ set_iter2 all_ids) as Hp
    by (by rewrite (H1 all_ids), (H2 all_ids)).
  pose proof (set_iter_NoDup _ all_ids H1) as Hnd.
  rewrite <-(Permutation_length Hp).
  rewrite <-(initial_in_degree_perm graph _ _ Hp).
  rewrite <-(sorted_ext _ _ Hp).
  set (d := initial_in_degree graph (set_iter1 all_ids)).
  assert (same_up_to_queue_order
    {| in_degree := d; queue := initial_queue d (set_iter1 all_ids); result := [] |}
    {| in_degree := d; queue := initial_queue d (set_iter2 all_ids); result := [] |})
    as Hinit.
  { split_and!; simpl; [done| |done]. unfold initial_queue. by rewrite Hp. }
  destruct (kahn_loop_perm graph _ _ (S (length (set_iter1 all_ids))) _ _ Hnd Hp Hinit)
    as [st1 st2 (_ & _ & Hr)|]; simpl; [by rewrite Hr|done].
Qed.


(** ** The loop invariant *)

Section Invariant.

Context (graph : gmap string (gset string)) (all_ids : gset string).
Context (nodes : list string) (Hnodes : nodes ≡ₚ elements all_ids).

Local Abbreviation D := (graph_get graph).
Local Abbreviation inv := (planner_inv graph all_ids).

Lemma nodes_NoDup : NoDup nodes.
Proof. rewrite Hnodes. apply NoDup_elements. Qed.

Lemma nodes_elem_of x : x ∈ nodes ↔ x ∈ all_ids.
Proof. rewrite Hnodes. apply elem_of_elements. Qed.

Lemma size_difference_step (X R : gset string) (node : string) :
  node ∈ X → node ∉ R → size (X ∖ R) = size (X ∖ (R ∪ {[node]})) + 1.
Proof.
  intros HX HR.
  assert (X ∖ R = {[node]} ∪ X ∖ (R ∪ {[node]})) as ->.
  { apply set_eq. intros x. rewrite elem_of_union, !elem_of_difference,
      elem_of_union, elem_of_singleton.
    destruct (decide (x = node)) as [->|]; tauto. }
  rewrite size_union, size_singleton; [lia|].
  intros x ->%elem_of_singleton. rewrite elem_of_difference, elem_of_union,
    elem_of_singleton. tauto.
Qed.

Lemma difference_skip (X R : gset string) (node : string) :
  node ∉ X → X ∖ (R ∪ {[node]}) = X ∖ R.
Proof.
  intros HX. apply set_eq. intros x.
  rewrite !elem_of_difference, elem_of_union, elem_of_singleton.
  split; [tauto|]. intros [? ?]. split; [done|]. intros [? | ->]; tauto.
Qed.

Lemma subseteq_size_difference (X R : gset string) :
  X ⊆ R ↔ size (X ∖ R) = 0.
Proof.
  rewrite size_empty_iff. split.
  - intros H x. rewrite elem_of_difference. split; [|by intros ?%elem_of_empty].
    intros [? []]. by apply H.
  - intros H x Hx. destruct (decide (x ∈ R)) as [|Hn]; [done|].
    destruct (not_elem_of_empty (C := gset string) x). apply H.
    by apply elem_of_difference.
Qed.

Lemma inv_init :
  let d := initial_in_degree graph nodes in
  inv {| in_degree := d; queue := initial_queue d nodes; result := [] |}.
Proof.
  intros d. unfold planner_inv. simpl.
  assert (∀ x, x ∈ initial_queue d nodes ↔ x ∈ all_ids ∧ D x ⊆ ∅) as Hq.
  { intros x. unfold initial_queue. rewrite list_elem_of_filter, nodes_elem_of.
    assert (x ∈ all_ids → (d !!! x = 0%Z ↔ D x ⊆ ∅)) as Hx.
    { intros Hx. rewrite lookup_total_alt. unfold d.
      rewrite initial_in_degree_lookup.
      rewrite decide_True by (by apply nodes_elem_of). simpl.
      rewrite subseteq_size_difference, difference_empty_L. lia. }
    split; intros [? ?]; split; try done; by apply Hx. }
  split_and!.
  - apply NoDup_filter, nodes_NoDup.
  - done.
  - intros x Hx. unfold d. rewrite initial_in_degree_lookup.
    rewrite decide_True by (by apply nodes_elem_of).
    by rewrite difference_empty_L.
  - intros j x y Hj. by rewrite lookup_nil in Hj.
Qed.

(** One round of the loop keeps the invariant and makes the result one
    longer. *)
Lemma inv_body st :
  inv st → queue st ≠ [] →
  inv (kahn_body graph nodes st) ∧
  length (result (kahn_body graph nodes st)) = S (length (result st)).
Proof.
  intros (Hnd & Hmem & Hdeg & Hord) Hq. unfold kahn_body.
  destruct (Py.sorted (queue st)) as [|node rest] eqn:Hs;
    [by apply sorted_nil_inv in Hs|].
  assert (node :: rest ≡ₚ queue st) as Hperm by (rewrite <-Hs; apply sorted_perm).
  destruct (relax_fold graph node nodes (in_degree st) rest nodes_NoDup)
    as (d' & -> & Hd').
  set (F := filter (released graph node (in_degree st)) nodes).
  set (R := list_to_set (result st) : gset string) in *.
  assert (node ∈ queue st) as Hnq by (rewrite <-Hperm; left).
  assert (node ∉ R) as Hnr.
  { unfold R. rewrite elem_of_list_to_set. intros Hin.
    apply NoDup_app in Hnd as (_ & Hdisj & _). by apply (Hdisj node). }
  assert (node ∈ all_ids ∧ D node ⊆ R) as [HnA Hnsub].
  { apply Hmem. apply elem_of_app. by right. }
  assert (list_to_set (result st ++ [node]) = R ∪ {[node]} :> gset string) as Hset.
  { rewrite list_to_set_app_L. simpl. by rewrite union_empty_r_L. }
  assert (∀ x, x ∈ all_ids → in_degree st !!! x = Z.of_nat (size (D x ∖ R)))
    as Hcount.
  { intros x Hx. by rewrite lookup_total_alt, Hdeg. }
  assert (∀ x, x ∈ F ↔ x ∈ all_ids ∧ node ∈ D x ∧ size (D x ∖ R) = 1) as HF.
  { intros x. unfold F, released. rewrite list_elem_of_filter, nodes_elem_of. split.
    - intros [[H1 H2] Hx]. rewrite Hcount in H2 by done. split_and!; [done..|lia].
    - intros (Hx & H1 & H2). rewrite Hcount by done. split; [split; [done|lia]|done]. }
  split; [|simpl; rewrite length_app; simpl; lia].
  unfold planner_inv; simpl.
  assert ((result st ++ [node]) ++ rest ++ F ≡ₚ (result st ++ queue st) ++ F) as Hall.
  { rewrite <-Hperm, <-!app_assoc. done. }
  rewrite Hset. split_and!.
  - rewrite Hall. apply NoDup_app. split_and!; [done| |apply NoDup_filter, nodes_NoDup].
    intros x Hx (_ & Hdep & _)%HF. apply Hmem in Hx as [_ Hsub].
    apply Hnr. by apply Hsub.
  - intros x. rewrite Hall, elem_of_app, Hmem, HF. fold R. split.
    + intros [[Hx Hsub] | (Hx & Hdep & Hsz)]; (split; [done|]).
      * etrans; [done|]. apply union_subseteq_l.
      * apply subseteq_size_difference.
        pose proof (size_difference_step (D x) R node Hdep Hnr). lia.
    + intros [Hx Hsub]. destruct (decide (node ∈ D x)) as [Hdep|Hdep].
      * right. split_and!; [done..|].
        pose proof (size_difference_step (D x) R node Hdep Hnr).
        apply subseteq_size_difference in Hsub. lia.
      * left. split; [done|]. apply subseteq_size_difference.
        rewrite <-(difference_skip _ _ node Hdep).
        by apply subseteq_size_difference.
  - intros x Hx. rewrite Hd'.
    destruct (decide (x ∈ nodes ∧ node ∈ D x)) as [[_ Hdep]|Hn].
    + rewrite Hcount by done. f_equal.
      pose proof (size_difference_step (D x) R node Hdep Hnr). lia.
    + rewrite Hdeg by done. fold R. rewrite difference_skip; [done|].
      intros Hdep. apply Hn. split; [by apply nodes_elem_of|done].
  - intros j x y Hj Hy. destruct (decide (j < length (result st))) as [Hlt|Hge].
    + rewrite lookup_app_l in Hj by done.
      destruct (Hord j x y Hj Hy) as (i & Hi & Hij). exists i. split; [|done].
      rewrite lookup_app_l; [done|lia].
    + assert (j = length (result st)) as ->.
      { apply lookup_lt_Some in Hj. rewrite length_app in Hj. simpl in Hj. lia. }
      rewrite list_lookup_middle in Hj by done. injection Hj as <-.
      assert (y ∈ result st) as [i Hi]%list_elem_of_lookup.
      { apply (elem_of_list_to_set (C := gset string)). by apply Hnsub. }
      exists i. split; [by apply lookup_app_l_Some|]. by apply lookup_lt_Some in Hi.
Qed.

Lemma inv_result_bound st :
  inv st → (length (result st) + length (queue st) ≤ size all_ids)%nat.
Proof.
  intros (Hnd & Hmem & _). rewrite <-length_app.
  change (size all_ids) with (length (elements all_ids)).
  apply submseteq_length, NoDup_submseteq; [done|].
  intros x [Hx _]%Hmem. by apply elem_of_elements.
Qed.

(** The loop ends within the rounds it is given, in a state with an empty
    queue that satisfies the invariant. *)
Lemma inv_loop fuel st :
  inv st → size all_ids < fuel + length (result st) →
  ∃ st', kahn_loop graph nodes fuel st = Some st' ∧ inv st' ∧ queue st' = [].
Proof.
  revert st. induction fuel as [|fuel IH]; intros st Hinv Hfuel;
    pose proof (inv_result_bound st Hinv) as Hbound; simpl;
    destruct (queue st) as [|x q] eqn:Hq; eauto.
  - simpl in *. lia.
  - destruct (inv_body st Hinv) as [Hinv' Hlen]; [by rewrite Hq|].
    apply IH; [done|]. rewrite Hlen. lia.
Qed.

(** More rounds than needed change nothing. *)
Lemma kahn_loop_more_fuel fuel fuel' st st' :
  kahn_loop graph nodes fuel st = Some st' → (fuel ≤ fuel')%nat →
  kahn_loop graph nodes fuel' st = Some st'.
Proof.
  revert fuel' st. induction fuel as [|fuel IH]; intros fuel' st; simpl;
    destruct (queue st) as [|x q] eqn:Hq; intros Hloop Hle;
    destruct fuel'; simpl; rewrite ?Hq; try done; try lia.
  apply IH; [done|lia].
Qed.

End Invariant.

(** ** The graph built from the records *)

Section Graph.

Lemma build_graph_snoc configs cfg :
  build_graph (configs ++ [cfg]) =
  (<[Cfg.id cfg := list_to_set (Cfg.get_depends_on cfg)]> (build_graph configs).1,
   (build_graph configs).2 ∪ {[Cfg.id cfg]}).
Proof.
  unfold build_graph. rewrite foldl_snoc. by destruct (foldl _ _ configs).
Qed.

(** [all_ids] is the set of the identifiers of the records. *)
Lemma build_graph_ids configs x :
  x ∈ (build_graph configs).2 ↔ x ∈ record_ids configs.
Proof.
  unfold record_ids. induction configs as [|cfg configs IH] using rev_ind.
  { simpl. rewrite elem_of_empty, elem_of_nil. done. }
  rewrite build_graph_snoc, fmap_app. simpl.
  rewrite elem_of_union, elem_of_singleton, elem_of_app, list_elem_of_singleton.
  by rewrite IH.
Qed.

(** An edge of the graph is a dependency declared by some record. *)
Lemma build_graph_edge configs x y :
  y ∈ graph_get (build_graph configs).1 x → depends configs x y.
Proof.
  unfold graph_get. induction configs as [|cfg configs IH] using rev_ind.
  { simpl. rewrite lookup_empty. simpl. by intros ?%elem_of_empty. }
  rewrite build_graph_snoc. simpl. destruct (decide (Cfg.id cfg = x)) as [<-|Hne].
  - rewrite lookup_insert_eq. simpl. rewrite elem_of_list_to_set. intros Hy.
    exists cfg. split_and!; [|done..]. apply elem_of_app. right. left.
  - rewrite lookup_insert_ne by done. intros (c & Hc & Hid & Hy)%IH.
    exists c. split_and!; [|done..]. apply elem_of_app. by left.
Qed.

(** For consistent records every declared dependency is an edge. *)
Lemma build_graph_depends configs x y :
  consistent configs → depends configs x y →
  y ∈ graph_get (build_graph configs).1 x.
Proof.
  unfold graph_get. induction configs as [|cfg configs IH] using rev_ind.
  { by intros _ (c & ?%elem_of_nil & _). }
  intros Hcons (c & Hc & Hid & Hy). rewrite build_graph_snoc. simpl.
  assert (cfg ∈ configs ++ [cfg]) as Hcfg by (apply elem_of_app; right; left).
  destruct (decide (Cfg.id cfg = x)) as [Heq|Hne].
  - rewrite <-Heq, lookup_insert_eq. simpl. rewrite elem_of_list_to_set.
    apply (Hcons c cfg); [done..|congruence|done].
  - rewrite lookup_insert_ne by done. apply IH.
    + intros c1 c2 H1 H2. apply Hcons; apply elem_of_app; by left.
    + exists c. split_and!; [|done..].
      apply elem_of_app in Hc as [? | ->%list_elem_of_singleton]; [done|].
      by destruct Hne.
Qed.

Lemma depends_record_id configs x y : depends configs x y → x ∈ record_ids configs.
Proof.
  intros (c & Hc & <- & _). unfold record_ids. by apply list_elem_of_fmap_2.
Qed.

Lemma build_graph_lookup_None configs x :
  x ∉ record_ids configs → (build_graph configs).1 !! x = None.
Proof.
  unfold record_ids. induction configs as [|cfg configs IH] using rev_ind; [done|].
  rewrite build_graph_snoc, fmap_app, not_elem_of_app. simpl.
  intros [Hx [Hne _]%not_elem_of_cons]. rewrite lookup_insert_ne by done. auto.
Qed.

(** With distinct identifiers the graph holds each record's own
    dependencies. *)
Lemma build_graph_lookup_unique configs cfg :
  NoDup (record_ids configs) → cfg ∈ configs →
  (build_graph configs).1 !! Cfg.id cfg = Some (list_to_set (Cfg.get_depends_on cfg)).
Proof.
  unfold record_ids. induction configs as [|c configs IH] using rev_ind.
  { by intros _ ?%elem_of_nil. }
  rewrite fmap_app, build_graph_snoc. simpl.
  intros (Hnd & Hdisj & _)%NoDup_app [Hcfg | ->%list_elem_of_singleton]%elem_of_app.
  - rewrite lookup_insert_ne; [by apply IH|]. intros Heq.
    apply (Hdisj (Cfg.id cfg)); [by apply list_elem_of_fmap_2|]. rewrite Heq. left.
  - by rewrite lookup_insert_eq.
Qed.

(** With distinct identifiers the graph does not depend on the order of
    the records. *)
Lemma build_graph_perm configs1 configs2 :
  configs1 ≡ₚ configs2 → NoDup (record_ids configs1) →
  build_graph configs1 = build_graph configs2.
Proof.
  intros Hp Hnd.
  assert (NoDup (record_ids configs2)) as Hnd2 by (unfold record_ids; by rewrite <-Hp).
  rewrite (surjective_pairing (build_graph configs1)),
          (surjective_pairing (build_graph configs2)). f_equal.
  - apply map_eq. intros x.
    destruct (decide (x ∈ record_ids configs1)) as [Hx|Hx].
    + apply list_elem_of_fmap in Hx as (cfg & -> & Hcfg).
      rewrite (build_graph_lookup_unique configs1) by done.
      rewrite (build_graph_lookup_unique configs2); [done..|by rewrite <-Hp].
    + rewrite !build_graph_lookup_None; [done| |done].
      unfold record_ids. by rewrite <-Hp.
  - apply set_eq. intros x. rewrite !build_graph_ids. unfold record_ids. by rewrite Hp.
Qed.

End Graph.

(** ** The planner returns *)

Section Returns.

Context (set_iter : gset string → list string) (Hiter : set_iter_spec set_iter).

(** The loop ends in a state that satisfies the invariant, and the result
    of the planner is read off that state. *)
Lemma topological_sort_final configs :
  ∃ st, planner_inv (build_graph configs).1 (build_graph configs).2 st ∧
        queue st = [] ∧
        topological_sort set_iter configs =
          Some (if decide (length (result st) ≠ size (build_graph configs).2)
                then (Py.sorted (set_iter (build_graph configs).2), true)
                else (result st, false)).
Proof.
  unfold topological_sort. destruct (build_graph configs) as [graph all_ids].
  cbn [fst snd]. cbv zeta. pose proof (Hiter all_ids) as Hnodes.
  destruct (inv_loop graph all_ids (set_iter all_ids) Hnodes
              (S (length (set_iter all_ids))) _
              (inv_init graph all_ids (set_iter all_ids) Hnodes))
    as (st & Hloop & Hinv & Hq).
  { simpl. rewrite (set_iter_length _ _ Hiter). lia. }
  exists st. split_and!; [done..|]. rewrite Hloop. simpl. by case_decide.
Qed.

(** The planner always returns: the rounds given to its loop suffice. *)
Lemma topological_sort_returns configs :
  ∃ order warned, topological_sort set_iter configs = Some (order, warned).
Proof.
  destruct (topological_sort_final configs) as (st & _ & _ & ->).
  case_decide; eauto.
Qed.

End Returns.

(** With distinct identifiers the planner returns the same whatever the
    order of the records and the order in which sets are iterated. *)
Lemma topological_sort_records_order
    (set_iter1 set_iter2 : gset string → list string) (configs1 configs2 : list Cfg.t) :
  set_iter_spec set_iter1 → set_iter_spec set_iter2 →
  configs1 ≡ₚ configs2 → NoDup (record_ids configs1) →
  topological_sort set_iter1 configs1 = topological_sort set_iter2 configs2.
Proof.
  intros H1 H2 Hp Hnd.
  rewrite (topological_sort_iter_independent set_iter1 set_iter2 configs1 H1 H2).
  unfold topological_sort. by rewrite (build_graph_perm configs1 configs2).
Qed.

(** ** Finite graphs without sinks have cycles *)

Section Cycles.

Context `{Countable A}.

Lemma tc_subrel (R R' : relation A) :
  (∀ x y, R x y → tc R' x y) → ∀ x y, tc R x y → tc R' x y.
Proof.
  intros Hsub x y Htc. induction Htc as [x y Hxy|x y z Hxy _ IH].
  - by apply Hsub.
  - etrans; [by apply Hsub|done].
Qed.

(** In a non-empty finite set where every element has a successor in the
    set, some element reaches itself.  By induction on the size of the set:
    an element without a loop is removed, and the edges through it are
    replaced by shortcuts. *)
Lemma no_sink_cycle (n : nat) :
  ∀ (R : relation A) (HR : ∀ x y, Decision (R x y)) (U : gset A),
    size U = n → U ≠ ∅ →
    (∀ x, x ∈ U → ∃ y, y ∈ U ∧ R x y) →
    ∃ x, tc R x x.
Proof.
  induction n as [|n IH]; intros R HR U Hsize Hne Hsucc.
  { by apply size_empty_inv, leibniz_equiv in Hsize. }
  apply set_choose_L in Hne as [a Ha].
  destruct (decide (R a a)) as [Haa|Haa]; [exists a; by apply tc_once|].
  set (U' := U ∖ {[a]}).
  set (R' := λ x y, R x y ∨ (R x a ∧ R a y)).
  assert (∀ x y, Decision (R' x y)) as HR' by (intros x y; unfold R'; apply _).
  assert (∀ x, x ∈ U' ↔ x ∈ U ∧ x ≠ a) as HU'.
  { intros x. unfold U'. by rewrite elem_of_difference, elem_of_singleton. }
  destruct (Hsucc a Ha) as (b & Hb & Hab).
  assert (b ∈ U') as Hb' by (apply HU'; split; [done|by intros ->]).
  destruct (IH R' HR' U') as [x Hx].
  - unfold U'. rewrite size_difference, size_singleton by (by apply singleton_subseteq_l).
    lia.
  - intros Hempty. rewrite Hempty in Hb'. by apply elem_of_empty in Hb'.
  - intros x [Hx Hxa]%HU'. destruct (Hsucc x Hx) as (y & Hy & Hxy).
    destruct (decide (y = a)) as [->|Hya].
    + exists b. split; [done|]. right. done.
    + exists y. split; [by apply HU'|]. by left.
  - exists x. revert Hx. apply tc_subrel. intros y z [Hyz|[Hya Haz]].
    + by apply tc_once.
    + by apply tc_l with a, tc_once.
Qed.

End Cycles.

(** ** The final state of the loop *)

Section Final.

Context (graph : gmap string (gset string)) (all_ids : gset string).
Context (st : kahn_state).
Context (Hinv : planner_inv graph all_ids st) (Hq : queue st = []).

Lemma final_NoDup : NoDup (result st).
Proof. destruct Hinv as (Hnd & _). by rewrite Hq, app_nil_r in Hnd. Qed.

(** The result holds exactly the nodes whose dependencies are all in it. *)
Lemma final_elem_of x :
  x ∈ result st ↔ x ∈ all_ids ∧ graph_get graph x ⊆ list_to_set (result st).
Proof. destruct Hinv as (_ & Hmem & _). by rewrite <-Hmem, Hq, app_nil_r. Qed.

Lemma final_before x y :
  x ∈ result st → y ∈ graph_get graph x → before (result st) y x.
Proof.
  destruct Hinv as (_ & _ & _ & Hord).
  intros [j Hj]%list_elem_of_lookup Hy.
  destruct (Hord j x y Hj Hy) as (i & Hi & Hij). by exists i, j.
Qed.

Lemma final_length : (length (result st) ≤ size all_ids)%nat.
Proof.
  pose proof (inv_result_bound graph all_ids st Hinv). lia.
Qed.

(** With as many entries as there are nodes, the result is a permutation
    of the nodes. *)
Lemma final_complete :
  length (result st) = size all_ids → result st ≡ₚ elements all_ids.
Proof.
  intros Hlen. apply submseteq_length_Permutation.
  - apply NoDup_submseteq; [apply final_NoDup|].
    intros x [Hx _]%final_elem_of. by apply elem_of_elements.
  - change (size all_ids) with (length (elements all_ids)) in Hlen. lia.
Qed.

(** With fewer entries, some node is missing from the result. *)
Lemma final_incomplete :
  length (result st) ≠ size all_ids → all_ids ∖ list_to_set (result st) ≠ ∅.
Proof.
  intros Hlen Hempty. apply Hlen. apply Nat.le_antisymm; [apply final_length|].
  change (size all_ids) with (length (elements all_ids)).
  apply submseteq_length, NoDup_submseteq; [apply NoDup_elements|].
  intros x Hx%elem_of_elements.
  destruct (decide (x ∈ result st)) as [|Hn]; [done|].
  destruct (not_elem_of_empty (C := gset string) x). rewrite <-Hempty.
  apply elem_of_difference. by rewrite elem_of_list_to_set.
Qed.

(** A node that is missing has a dependency that is missing. *)
Lemma final_missing_dependency x :
  x ∈ all_ids → x ∉ result st →
  ∃ y, y ∈ graph_get graph x ∧ y ∉ result st.
Proof.
  intros Hx Hn.
  assert (graph_get graph x ∖ list_to_set (result st) ≠ ∅) as Hne.
  { intros Hempty. apply Hn, final_elem_of. split; [done|].
    apply subseteq_size_difference. by rewrite Hempty, size_empty. }
  apply set_choose_L in Hne as [y [Hy Hyr]%elem_of_difference].
  exists y. by rewrite elem_of_list_to_set in Hyr.
Qed.

End Final.

(** ** Positions in an ordering *)

Section Before.

Lemma before_trans l x y z : NoDup l → before l x y → before l y z → before l x z.
Proof.
  intros Hnd (i & j & Hi & Hj & Hij) (j' & k & Hj' & Hk & Hjk).
  assert (j = j') as <- by (by eapply NoDup_lookup).
  exists i, k. split_and!; [done..|lia].
Qed.

Lemma before_irrefl l x : NoDup l → ¬ before l x x.
Proof.
  intros Hnd (i & j & Hi & Hj & Hij).
  assert (i = j) by (by eapply NoDup_lookup). lia.
Qed.

Lemma before_elem_of l x y : before l x y → x ∈ l ∧ y ∈ l.
Proof.
  intros (i & j & Hi & Hj & _). split; by eapply list_elem_of_lookup_2.
Qed.

End Before.

(** ** The planner: permutation, cycles, dependency order *)

Section Planner.

Context (set_iter : gset string → list string) (Hiter : set_iter_spec set_iter).

Lemma fallback_lists_each_id_once configs :
  lists_each_id_once configs (Py.sorted (set_iter (build_graph configs).2)).
Proof.
  split.
  - apply sorted_NoDup. by apply set_iter_NoDup.
  - intros x. by rewrite sorted_elem_of, set_iter_elem_of, build_graph_ids.
Qed.

(** The ordering returned by the planner lists the identifiers of the
    records, each once, whichever branch returns it. *)
Lemma topological_sort_lists_ids (configs : list Cfg.t) :
  ∃ order warned,
    topological_sort set_iter configs = Some (order, warned) ∧
    lists_each_id_once configs order.
Proof.
  destruct (topological_sort_final set_iter Hiter configs) as (st & Hinv & Hq & ->).
  case_decide as Hlen.
  - eexists _, _. split; [done|]. apply fallback_lists_each_id_once.
  - eexists _, _. split; [done|]. split.
    + by eapply final_NoDup.
    + intros x. rewrite (final_complete _ _ _ Hinv Hq Hlen).
      by rewrite elem_of_elements, build_graph_ids.
Qed.

(** C9: whatever the records are, also when a depends_on list names an
    identifier that no record has, the planner returns an ordering in which
    every identifier of a record occurs exactly once and nothing else
    occurs: a permutation of the set of identifiers, on the success branch
    and on the fallback branch alike. *)
Theorem topological_sort_permutation (configs : list Cfg.t) :
  ∃ order warned,
    topological_sort set_iter configs = Some (order, warned) ∧
    NoDup order ∧ ∀ x, x ∈ order ↔ x ∈ record_ids configs.
Proof. apply topological_sort_lists_ids. Qed.

(** When the result has as many entries as there are identifiers, the
    dependencies of consistent records are closed and have no cycle: each
    comes before the identifier that declares it. *)
Lemma complete_closed_acyclic (configs : list Cfg.t) (st : kahn_state) :
  consistent configs →
  planner_inv (build_graph configs).1 (build_graph configs).2 st →
  queue st = [] →
  length (result st) = size (build_graph configs).2 →
  (∀ x y, depends configs x y → before (result st) y x) ∧
  closed configs ∧ acyclic configs.
Proof.
  intros Hcons Hinv Hq Hlen.
  pose proof (final_NoDup _ _ _ Hinv Hq) as Hnd.
  pose proof (final_complete _ _ _ Hinv Hq Hlen) as Hperm.
  assert (∀ a b, depends configs a b → before (result st) b a) as Hedge.
  { intros a b Hab.
    apply (final_before _ _ _ Hinv); [|by apply build_graph_depends].
    rewrite Hperm, elem_of_elements, build_graph_ids.
    by eapply depends_record_id. }
  split_and!; [done| |].
  - intros x y [Hy _]%Hedge%before_elem_of.
    by rewrite Hperm, elem_of_elements, build_graph_ids in Hy.
  - assert (∀ a b, tc (depends configs) a b → before (result st) b a) as Hpath.
    { intros a b Hab. induction Hab as [a b Hab|a b c Hab _ IH]; [by apply Hedge|].
      eapply before_trans; [done|apply IH|by apply Hedge]. }
    intros x Hx%Hpath. by apply (before_irrefl (result st) x).
Qed.

(** On a cycle the planner falls back to the sorted identifiers. *)
Lemma topological_sort_fallback (configs : list Cfg.t) :
  consistent configs → cyclic configs →
  topological_sort set_iter configs
  = Some (Py.sorted (set_iter (build_graph configs).2), true).
Proof.
  intros Hcons [x Hcycle].
  destruct (topological_sort_final set_iter Hiter configs) as (st & Hinv & Hq & ->).
  case_decide as Hlen; [done|]. exfalso.
  destruct (complete_closed_acyclic configs st) as (_ & _ & Hacyclic); [done..|].
  by apply (Hacyclic x).
Qed.

(** C2: when the dependencies of consistent records contain a cycle, the
    planner returns, with the warning, the identifiers of the records in
    strictly ascending lexicographic order, each once.  It does return: the
    cycle is not an error. *)
Theorem topological_sort_cycle (configs : list Cfg.t) :
  consistent configs → cyclic configs →
  ∃ order,
    topological_sort set_iter configs = Some (order, true) ∧
    order = Py.sorted (set_iter (build_graph configs).2) ∧
    ascending order ∧ lists_each_id_once configs order.
Proof.
  intros Hcons Hcycle. eexists.
  split_and!; [by apply topological_sort_fallback|done| |].
  - apply sorted_ascending. by apply set_iter_NoDup.
  - apply fallback_lists_each_id_once.
Qed.

(** The planner returns without the warning only when the dependencies
    are closed and have no cycle. *)
Lemma topological_sort_no_warning (configs : list Cfg.t) (order : list string) :
  consistent configs →
  topological_sort set_iter configs = Some (order, false) →
  closed configs ∧ acyclic configs ∧ respects_dependencies configs order.
Proof.
  intros Hcons.
  destruct (topological_sort_final set_iter Hiter configs) as (st & Hinv & Hq & ->).
  case_decide as Hlen; [done|]. intros [= <-].
  destruct (complete_closed_acyclic configs st) as (Hedge & ? & ?); [done..|].
  split_and!; [done..|]. intros cfg y Hcfg Hy. apply Hedge. by exists cfg.
Qed.

(** C1, amended: when the records are consistent, every dependency they
    declare is the identifier of a record, and the dependencies have no
    cycle, the planner returns without the warning an ordering that lists
    every identifier exactly once and places every identifier strictly
    after each identifier in its depends_on list. *)
Theorem topological_sort_closed_acyclic (configs : list Cfg.t) :
  consistent configs → closed configs → acyclic configs →
  ∃ order,
    topological_sort set_iter configs = Some (order, false) ∧
    lists_each_id_once configs order ∧
    respects_dependencies configs order.
Proof.
  intros Hcons Hclosed Hacyclic.
  destruct (topological_sort_final set_iter Hiter configs) as (st & Hinv & Hq & ->).
  set (graph := (build_graph configs).1) in *.
  set (all_ids := (build_graph configs).2) in *.
  case_decide as Hlen.
  - exfalso. apply (final_incomplete _ _ _ Hinv) in Hlen.
    destruct (no_sink_cycle (size (all_ids ∖ list_to_set (result st)))
                (λ x y, y ∈ graph_get graph x) (λ x y, decide (y ∈ graph_get graph x))
                (all_ids ∖ list_to_set (result st))) as [x Hx]; [done..| |].
    + intros x [Hx Hxr]%elem_of_difference. rewrite elem_of_list_to_set in Hxr.
      destruct (final_missing_dependency _ _ _ Hinv Hq x Hx Hxr) as (y & Hy & Hyr).
      exists y. split; [|done]. apply elem_of_difference.
      rewrite elem_of_list_to_set. split; [|done].
      apply build_graph_ids, (Hclosed x). by apply build_graph_edge.
    + apply (Hacyclic x). revert Hx. apply tc_subrel. intros a b Hab.
      by apply tc_once, build_graph_edge.
  - eexists. split; [done|].
    pose proof (final_complete _ _ _ Hinv Hq Hlen) as Hperm.
    split; [split|].
    + by eapply final_NoDup.
    + intros x. rewrite Hperm, elem_of_elements. apply build_graph_ids.
    + intros cfg y Hcfg Hy. apply (final_before _ _ _ Hinv).
      * rewrite Hperm, elem_of_elements. apply build_graph_ids.
        unfold record_ids. by apply list_elem_of_fmap_2.
      * apply build_graph_depends; [done|]. by exists cfg.
Qed.

End Planner.

(** ** Header aggregation *)

Section Headers.

Context (T : tables).
Context (set_iter : gset string → list string) (Hiter : set_iter_spec set_iter).

Lemma all_headers_elem_of configs h :
  h ∈ foldl (λ (all_headers : gset string) cfg,
               all_headers ∪ list_to_set (Cfg.get_headers cfg)) ∅ configs
  ↔ ∃ cfg, cfg ∈ configs ∧ h ∈ Cfg.get_headers cfg.
Proof.
  induction configs as [|cfg configs IH] using rev_ind.
  { simpl. split; [by intros ?%elem_of_empty|by intros (? & ?%elem_of_nil & _)]. }
  rewrite foldl_snoc, elem_of_union, elem_of_list_to_set, IH. split.
  - intros [(c & Hc & Hh)|Hh].
    + exists c. split; [|done]. apply elem_of_app. by left.
    + exists cfg. split; [|done]. apply elem_of_app. right. left.
  - intros (c & [Hc | ->%list_elem_of_singleton]%elem_of_app & Hh); eauto.
Qed.

Lemma resolve_headers_lookup (hs : list string) (h : string) :
  resolve_headers T hs !! h =
  if decide (h ∈ hs) then HEADER_REPOS T !! h else None.
Proof.
  induction hs as [|a hs IH] using rev_ind.
  { unfold resolve_headers. simpl. rewrite lookup_empty.
    by destruct (decide (h ∈ [])) as [?%elem_of_nil|]. }
  assert (h ∈ hs ++ [a] ↔ h ∈ hs ∨ h = a) as Hmem
    by (by rewrite elem_of_app, list_elem_of_singleton).
  unfold resolve_headers. rewrite foldl_snoc. fold (resolve_headers T hs).
  destruct (decide (h = a)) as [->|Hne].
  - rewrite (decide_True (P := a ∈ hs ++ [a])) by (apply Hmem; by right).
    destruct (HEADER_REPOS T !! a) as [location|] eqn:Ha.
    + by rewrite lookup_insert_eq.
    + rewrite IH. by case_decide.
  - transitivity (resolve_headers T hs !! h).
    { destruct (HEADER_REPOS T !! a); [by rewrite lookup_insert_ne|done]. }
    rewrite IH. destruct (decide (h ∈ hs)) as [Hin|Hin].
    + rewrite decide_True; [done|]. apply Hmem. by left.
    + rewrite decide_False; [done|]. rewrite Hmem. by intros [?|?].
Qed.

(** C7: the header aggregator returns the headers of the records in
    strictly ascending lexicographic order, so without repetition, and it
    returns exactly the headers that some record requires; the resolved
    mapping holds, for each collected header that the registry knows, the
    location the registry gives, and nothing else: a collected header that
    the registry does not know is left out. *)
Theorem collect_all_headers_resolved (configs : list Cfg.t) :
  let required_headers := collect_all_headers set_iter configs in
  let header_config := resolve_headers T required_headers in
  ascending required_headers ∧
  NoDup required_headers ∧
  (∀ h, h ∈ required_headers ↔ ∃ cfg, cfg ∈ configs ∧ h ∈ Cfg.get_headers cfg) ∧
  (∀ h, header_config !! h =
        if decide (h ∈ required_headers) then HEADER_REPOS T !! h else None) ∧
  (∀ h, h ∈ dom header_config ↔ h ∈ required_headers ∧ h ∈ dom (HEADER_REPOS T)).
Proof.
  intros required_headers header_config. unfold required_headers, collect_all_headers.
  split_and!.
  - apply sorted_ascending. by apply set_iter_NoDup.
  - apply sorted_NoDup. by apply set_iter_NoDup.
  - intros h. by rewrite sorted_elem_of, set_iter_elem_of, all_headers_elem_of.
  - intros h. apply resolve_headers_lookup.
  - intros h. rewrite !elem_of_dom. unfold header_config.
    rewrite resolve_headers_lookup. fold (collect_all_headers set_iter configs).
    fold required_headers. case_decide; [tauto|].
    split; [by intros [? ?]|tauto].
Qed.

End Headers.

(** ** Main *)

Section Main.

Context `{L : !Py.Lower}.
Context (T : tables).
Context (set_iter : gset string → list string) (Hiter : set_iter_spec set_iter).

(** The active references are the input references whose identifier is
    not in the exclusion table, in input order. *)
Lemma split_skipped_active tweakslist :
  (split_skipped T tweakslist).2 =
  filter (λ repo, ¬ skipped T (make_id repo)) tweakslist.
Proof.
  unfold split_skipped, skipped.
  induction tweakslist as [|repo l IH] using rev_ind; [done|].
  rewrite foldl_snoc, filter_app. destruct (foldl _ _ l) as [sk ac].
  simpl in IH. rewrite <-IH.
  destruct (SKIPPED_TWEAKS T !! make_id repo) as [reason|] eqn:Hs; simpl.
  - rewrite filter_cons_False, filter_nil, app_nil_r; [done|].
    intros Hn. apply Hn. by rewrite Hs.
  - rewrite filter_cons_True; [done|]. rewrite Hs. by intros [? ?].
Qed.

(** The skipped references are reported with the reason the table gives. *)
Lemma split_skipped_reported tweakslist repo reason :
  (repo, reason) ∈ (split_skipped T tweakslist).1 ↔
  repo ∈ tweakslist ∧ SKIPPED_TWEAKS T !! make_id repo = Some reason.
Proof.
  unfold split_skipped.
  induction tweakslist as [|r l IH] using rev_ind.
  { simpl. split; [by intros ?%elem_of_nil|by intros [?%elem_of_nil _]]. }
  rewrite foldl_snoc, elem_of_app, list_elem_of_singleton.
  destruct (foldl _ _ l) as [sk ac]. simpl in IH.
  destruct (SKIPPED_TWEAKS T !! make_id r) as [reason'|] eqn:Hs; simpl.
  - rewrite elem_of_app, list_elem_of_singleton, IH. split.
    + intros [[? ?]|[= -> ->]]; auto.
    + intros [[?| ->] Hr]; [by left|]. right. congruence.
  - rewrite IH. split; [intros [? ?]; auto|].
    intros [[?| ->] Hr]; [done|congruence].
Qed.

(** With a non-empty reference list [main] writes its output; with an
    empty one it exits with status 1. *)
Lemma main_returns tweakslist :
  tweakslist ≠ [] → ∃ out, main T set_iter tweakslist = Returned out.
Proof.
  intros Hne. unfold main. destruct tweakslist as [|repo l]; [done|]. simpl.
  destruct (split_skipped T (repo :: l)) as [sk ac].
  destruct (topological_sort_returns set_iter Hiter
              ((λ repo, analyze_tweak T repo
                  (foldl (λ m repo, <[make_id repo:=repo]> m) ∅ ac)) <$> ac))
    as (order & warned & ->).
  eauto.
Qed.

Lemma main_empty : main T set_iter [] = Exited 1.
Proof. done. Qed.

(** C5: the references whose identifier is in the exclusion table are
    removed before resolution: the active list of the output is the input
    list without them, the records are those of the active list, and no
    excluded identifier is the identifier of an active reference, of a
    record, or an entry of the build order. *)
Theorem skipped_tweaks_excluded (tweakslist : list string) (out : output) :
  main T set_iter tweakslist = Returned out →
  out_tweakslist out = filter (λ repo, ¬ skipped T (make_id repo)) tweakslist ∧
  Cfg.id <$> out_config out = make_id <$> out_tweakslist out ∧
  (∀ repo, repo ∈ out_tweakslist out → ¬ skipped T (make_id repo)) ∧
  (∀ cfg, cfg ∈ out_config out → ¬ skipped T (Cfg.id cfg)) ∧
  (∀ x, x ∈ out_build_order out → ¬ skipped T x).
Proof.
  unfold main. destruct (truthy_list tweakslist); [|done].
  pose proof (split_skipped_active tweakslist) as Hactive.
  destruct (split_skipped T tweakslist) as [sk ac]. simpl in Hactive.
  set (all_tweaks := foldl (λ m repo, <[make_id repo:=repo]> m) ∅ ac).
  set (configs := (λ repo, analyze_tweak T repo all_tweaks) <$> ac).
  destruct (topological_sort_lists_ids set_iter Hiter configs)
    as (order & warned & Hsort & _ & Horder).
  rewrite Hsort. intros [= <-]. simpl.
  assert (∀ repo, repo ∈ ac → ¬ skipped T (make_id repo)) as Hac.
  { intros repo. rewrite Hactive. by intros [? _]%list_elem_of_filter. }
  assert (Cfg.id <$> configs = make_id <$> ac) as Hids.
  { unfold configs. rewrite <-list_fmap_compose. done. }
  split_and!; [done..| |].
  - intros cfg (repo & -> & Hrepo)%list_elem_of_fmap. by apply Hac.
  - intros x Hx%Horder. unfold record_ids in Hx. rewrite Hids in Hx.
    apply list_elem_of_fmap in Hx as (repo & -> & Hrepo). by apply Hac.
Qed.

(** A cycle among the records does not stop [main]: the output carries
    the warning and the sorted identifiers as build order. *)
Lemma main_cycle (tweakslist : list string) (out : output) :
  main T set_iter tweakslist = Returned out →
  cyclic (out_config out) →
  out_cycle_warning out = true ∧
  ascending (out_build_order out) ∧
  lists_each_id_once (out_config out) (out_build_order out).
Proof.
  unfold main. destruct (truthy_list tweakslist); [|done].
  destruct (split_skipped T tweakslist) as [sk ac].
  set (all_tweaks := foldl (λ m repo, <[make_id repo:=repo]> m) ∅ ac).
  set (configs := (λ repo, analyze_tweak T repo all_tweaks) <$> ac).
  destruct (topological_sort set_iter configs) as [[order warned]|] eqn:Hsort; [|done].
  intros [= <-]. simpl. intros Hcycle.
  rewrite (topological_sort_fallback set_iter Hiter configs) in Hsort;
    [|apply analyze_tweak_consistent|done].
  injection Hsort as <- <-. split_and!; [done| |].
  - apply sorted_ascending. by apply set_iter_NoDup.
  - by apply fallback_lists_each_id_once.
Qed.

(** What [main] hands on to the header aggregation. *)
Lemma main_headers (tweakslist : list string) (out : output) :
  main T set_iter tweakslist = Returned out →
  required_headers (out_metadata out) = collect_all_headers set_iter (out_config out) ∧
  out_headers out = resolve_headers T (required_headers (out_metadata out)).
Proof.
  unfold main. destruct (truthy_list tweakslist); [|done].
  destruct (split_skipped T tweakslist) as [sk ac].
  destruct (topological_sort _ _) as [[order warned]|]; [|done].
  by intros [= <-].
Qed.

End Main.

(** ** Checking the hypotheses on given records *)

Section Checks.

(** Records with pairwise distinct identifiers are consistent. *)
Lemma unique_ids_consistent configs : NoDup (record_ids configs) → consistent configs.
Proof.
  intros Hnd c1 c2 [i Hi]%list_elem_of_lookup [j Hj]%list_elem_of_lookup Hid.
  assert (i = j) as ->.
  { apply (NoDup_lookup _ i j (Cfg.id c1) Hnd); unfold record_ids;
      rewrite list_lookup_fmap; [by rewrite Hi|by rewrite Hj, Hid]. }
  by replace c2 with c1 by congruence.
Qed.

Lemma closed_check configs :
  Forall (λ cfg, Forall (λ y, y ∈ record_ids configs) (Cfg.get_depends_on cfg)) configs →
  closed configs.
Proof.
  intros Hall x y (cfg & Hcfg & _ & Hy).
  eapply Forall_forall in Hall; [|done]. by eapply Forall_forall in Hall.
Qed.

(** A rank that decreases along every dependency rules out cycles. *)
Lemma acyclic_by_rank configs (rank : string → nat) :
  Forall (λ cfg, Forall (λ y, rank y < rank (Cfg.id cfg)) (Cfg.get_depends_on cfg)) configs →
  acyclic configs.
Proof.
  intros Hall.
  assert (∀ x y, tc (depends configs) x y → rank y < rank x) as Hpath.
  { intros x y Hxy. induction Hxy as [x y Hxy|x y z Hxy _ IH].
    - destruct Hxy as (cfg & Hcfg & <- & Hy).
      eapply Forall_forall in Hall; [|done]. by eapply Forall_forall in Hall.
    - destruct Hxy as (cfg & Hcfg & <- & Hy).
      eapply Forall_forall in Hall; [|done]. eapply Forall_forall in Hall; [|done].
      lia. }
  intros x Hx%Hpath. lia.
Qed.

Lemma set_iter_spec_elements : set_iter_spec elements.
Proof. by intros s. Qed.

Lemma set_iter_spec_reverse : set_iter_spec (λ s, reverse (elements s)).
Proof. intros s. apply reverse_Permutation. Qed.

End Checks.

(** ** Concrete runs *)

(** The runs below are on ASCII references, where lowering is
    [Py.ascii_lower]. *)

Section Runs.

Local Existing Instance Py.ascii_Lower.

(** The example of the specification: [b] and [c] depend on [a]. *)
Example topological_sort_abc :
  topological_sort elements (record_of <$> [("a", []); ("b", ["a"]); ("c", ["a"])])
  = Some (["a"; "b"; "c"], false).
Proof. by vm_compute. Qed.

(** The example of the specification: [x] and [y] depend on each other. *)
Example topological_sort_xy :
  topological_sort elements (record_of <$> [("x", ["y"]); ("y", ["x"])])
  = Some (["x"; "y"], true).
Proof. by vm_compute. Qed.

(** A dependency that no record has keeps its dependents out of the queue
    for good: the planner takes the fallback branch and warns of a cycle
    where there is none. *)
Example topological_sort_dangling :
  topological_sort elements (record_of <$> [("a", ["b"]); ("b", ["zz"])])
  = Some (["a"; "b"], true).
Proof. by vm_compute. Qed.

(** The same through [main] with the tables of the source: YouPiP without
    YTVideoOverlay. *)
Example main_dangling :
  ∃ out, main analyzer_tables elements ["PoomSmart/YouPiP"] = Returned out ∧
         Cfg.get_depends_on <$> out_config out = [["ytvideooverlay"]] ∧
         out_build_order out = ["youpip"] ∧ out_cycle_warning out = true.
Proof. eexists. split; [by vm_compute|]. by vm_compute. Qed.

(** C1 as stated fails: the records [a] depending on [b] and [b]
    depending on [zz], which has no record, are consistent and have no
    cycle, but the planner returns [a] before [b]. *)
Lemma topological_sort_acyclic_counterexample :
  let configs := record_of <$> [("a", ["b"]); ("b", ["zz"])] in
  set_iter_spec elements ∧ consistent configs ∧ acyclic configs ∧
  ¬ orders_by_dependency elements configs.
Proof.
  intros configs. split_and!.
  - apply set_iter_spec_elements.
  - apply unique_ids_consistent. by compute_done.
  - apply (acyclic_by_rank _ (λ x, if decide (x = "a") then 2
                                    else if decide (x = "b") then 1 else 0)).
    by compute_done.
  - intros (order & warned & Hsort & _ & Hresp).
    assert (order = ["a"; "b"]) as -> by (vm_compute in Hsort; congruence).
    destruct (Hresp (record_of ("a", ["b"])) "b") as (i & j & Hi & Hj & Hij).
    + left.
    + left.
    + destruct i as [|[|i]], j as [|[|j]]; simpl in *; try done; lia.
Qed.

(** ** The theorems at concrete inputs *)

(** C1, amended, on the example of the specification. *)
Lemma topological_sort_closed_acyclic_witness :
  let configs := record_of <$> [("a", []); ("b", ["a"]); ("c", ["a"])] in
  set_iter_spec elements ∧ consistent configs ∧ closed configs ∧ acyclic configs ∧
  ∃ order, topological_sort elements configs = Some (order, false) ∧
           lists_each_id_once configs order ∧ respects_dependencies configs order.
Proof.
  intros configs.
  assert (consistent configs) as Hcons
    by (apply unique_ids_consistent; by compute_done).
  assert (closed configs) as Hclosed by (apply closed_check; by compute_done).
  assert (acyclic configs) as Hacyclic
    by (apply (acyclic_by_rank _ (λ x, if decide (x = "a") then 0 else 1));
        by compute_done).
  split_and!; [apply set_iter_spec_elements|done..|].
  exact (topological_sort_closed_acyclic elements set_iter_spec_elements configs
           Hcons Hclosed Hacyclic).
Defined.

(** C2 on the example of the specification. *)
Lemma topological_sort_cycle_witness :
  let configs := record_of <$> [("x", ["y"]); ("y", ["x"])] in
  consistent configs ∧ cyclic configs ∧
  ∃ order, topological_sort elements configs = Some (order, true) ∧
           order = Py.sorted (elements (build_graph configs).2) ∧
           ascending order ∧ lists_each_id_once configs order.
Proof.
  intros configs.
  assert (consistent configs) as Hcons
    by (apply unique_ids_consistent; by compute_done).
  assert (cyclic configs) as Hcyc.
  { exists "x". apply tc_l with "y"; [|apply tc_once].
    - exists (record_of ("x", ["y"])). split_and!; [by compute_done|done|by compute_done].
    - exists (record_of ("y", ["x"])). split_and!; [by compute_done|done|by compute_done]. }
  split_and!; [done..|].
  exact (topological_sort_cycle elements set_iter_spec_elements configs Hcons Hcyc).
Defined.


(** C4 on an identifier that no table of the source has. *)
Lemma analyze_tweak_unknown_witness :
  analyze_tweak analyzer_tables "someone/Brand-New_Tweak" ∅ =
    {| Cfg.id := "brandnewtweak";
       Cfg.repo := "someone/Brand-New_Tweak";
       Cfg.fetch := "build";
       Cfg.build_cmd := Some DEFAULT_BUILD_CMD;
       Cfg.deb_filter := None;
       Cfg.deb_exclude := None;
       Cfg.depends_on := None;
       Cfg.pre_build_cmd := None;
       Cfg.headers := Some ["YouTubeHeader"] |}.
Proof.
  etrans;
    [apply (analyze_tweak_unknown analyzer_tables "someone/Brand-New_Tweak" ∅);
       by compute_done|].
  by vm_compute.
Defined.

(** C5 on a list with an excluded reference. *)
Lemma skipped_tweaks_excluded_witness :
  let tweakslist := ["PoomSmart/YouPiP"; "arichornlover/YouTimeStamp";
                     "PoomSmart/YTVideoOverlay"] in
  ∃ out, main analyzer_tables elements tweakslist = Returned out ∧
    out_tweakslist out
      = filter (λ repo, ¬ skipped analyzer_tables (make_id repo)) tweakslist ∧
    Cfg.id <$> out_config out = make_id <$> out_tweakslist out ∧
    (∀ repo, repo ∈ out_tweakslist out → ¬ skipped analyzer_tables (make_id repo)) ∧
    (∀ cfg, cfg ∈ out_config out → ¬ skipped analyzer_tables (Cfg.id cfg)) ∧
    (∀ x, x ∈ out_build_order out → ¬ skipped analyzer_tables x).
Proof.
  intros tweakslist. eexists. split; [by vm_compute|].
  apply (skipped_tweaks_excluded analyzer_tables elements set_iter_spec_elements
           tweakslist).
  by vm_compute.
Defined.

(** C6 on tables with a deb filter for an identifier that is built. *)
Lemma deb_fields_only_for_release_witness :
  let cfg := analyze_tweak tables_with_stray_entries "PoomSmart/YTUHD" ∅ in
  is_Some (DEB_FILTERS tables_with_stray_entries !! Cfg.id cfg) ∧
  Cfg.fetch cfg = "build" ∧
  Cfg.deb_filter cfg = None ∧ Cfg.deb_exclude cfg = None.
Proof.
  intros cfg. split; [by compute_done|]. split; [by vm_compute|].
  apply (deb_fields_only_for_release tables_with_stray_entries "PoomSmart/YTUHD" ∅).
  by vm_compute.
Defined.

(** C7 on the records of three tweaks of the source. *)
Lemma collect_all_headers_resolved_witness :
  let configs := (λ repo, analyze_tweak analyzer_tables repo ∅)
                   <$> ["dayanch96/YTLite"; "therealFoxster/DontEatMyContent";
                        "PoomSmart/YTUHD"] in
  collect_all_headers elements configs = ["PSHeader"; "YTHeaders"; "YouTubeHeader"] ∧
  ∀ h, resolve_headers analyzer_tables (collect_all_headers elements configs) !! h =
       if decide (h ∈ collect_all_headers elements configs)
       then HEADER_REPOS analyzer_tables !! h else None.
Proof.
  intros configs. split; [by vm_compute|].
  apply (collect_all_headers_resolved analyzer_tables elements
           set_iter_spec_elements configs).
Defined.

(** C8 on an ASCII reference with all three separators. *)
Lemma normalize_id_idempotent_witness :
  lower_spec Py.ascii_Lower ∧
  normalize_id "PoomSmart/YouTube-Header_x.y" = "youtubeheaderxy" ∧
  normalize_id (normalize_id "PoomSmart/YouTube-Header_x.y")
  = normalize_id "PoomSmart/YouTube-Header_x.y".
Proof.
  split; [apply ascii_lower_spec|]. split; [by vm_compute|].
  apply (normalize_id_idempotent "PoomSmart/YouTube-Header_x.y"), ascii_lower_spec.
Defined.

(** C9 on records with a dependency that no record has. *)
Lemma topological_sort_permutation_witness :
  let configs := record_of <$> [("a", ["b"]); ("b", ["zz"])] in
  ∃ order warned,
    topological_sort elements configs = Some (order, warned) ∧
    NoDup order ∧ ∀ x, x ∈ order ↔ x ∈ record_ids configs.
Proof.
  intros configs.
  exact (topological_sort_permutation elements set_iter_spec_elements configs).
Defined.

(** C10 on tables with a build command for a "release" and an "appex"
    identifier: the records have no build_cmd key. *)
Example build_cmd_absent_despite_override :
  let release := analyze_tweak tables_with_stray_entries "dayanch96/YTLite" ∅ in
  let appex := analyze_tweak tables_with_stray_entries "CokePokes/YoutubeExtensions" ∅ in
  is_Some (SPECIAL_BUILD_CMDS tables_with_stray_entries !! Cfg.id release) ∧
  Cfg.fetch release = "release" ∧ Cfg.build_cmd release = None ∧
  is_Some (SPECIAL_BUILD_CMDS tables_with_stray_entries !! Cfg.id appex) ∧
  Cfg.fetch appex = "appex" ∧ Cfg.build_cmd appex = None ∧
  Cfg.deb_exclude appex = None.
Proof. split_and!; by compute_done. Qed.

Example sorted_example :
  Py.sorted ["b"; "a"; "ab"; "B"; "a-b"] = ["B"; "a"; "a-b"; "ab"; "b"].
Proof. by vm_compute. Qed.

Example normalize_id_example :
  normalize_id "PoomSmart/YouTube-Header_x.y" = "youtubeheaderxy" ∧
  normalize_id "youtubeheaderxy" = "youtubeheaderxy".
Proof. by vm_compute. Qed.

End Runs.

(** * Further properties *)

(** ** What normalization identifies *)

Section NormalizationMore.

Context `{L : !Py.Lower}.

(** Splitting distributes over a separator between two strings. *)
Lemma split_app sep a b :
  Py.split sep (a +:+ String sep b) = Py.split sep a ++ Py.split sep b.
Proof.
  induction a as [|c a IH]; simpl.
  { by rewrite Ascii.eqb_refl. }
  destruct (Ascii.eqb c sep); [by rewrite IH|].
  rewrite IH. destruct (Py.split sep a) as [|w ws] eqn:Ha; [|done].
  by destruct (split_nonempty sep a).
Qed.

Lemma last_item_app l1 l2 : l2 ≠ [] → Py.last_item (l1 ++ l2) = Py.last_item l2.
Proof.
  intros Hne. unfold Py.last_item. rewrite last_app.
  destruct (last l2) eqn:Hl; [done|]. by apply last_None in Hl.
Qed.

Lemma split_fields_clean sep s :
  Forall (λ w, Py.occurs sep w = false) (Py.split sep s).
Proof.
  induction s as [|c s IH]; simpl; [by repeat constructor|].
  destruct (Ascii.eqb c sep) eqn:Hc; [by constructor|].
  destruct (Py.split sep s) as [|w ws]; [by repeat constructor; simpl; rewrite Hc|].
  apply Forall_cons in IH as [Hw Hws]. constructor; [|done]. simpl. by rewrite Hc.
Qed.

Lemma join_cons sep w ws :
  ws ≠ [] → join sep (w :: ws) = w +:+ String sep (join sep ws).
Proof. unfold join. by destruct ws. Qed.

Lemma join_split sep s : join sep (Py.split sep s) = s.
Proof.
  induction s as [|c s IH]; simpl; [done|].
  destruct (Ascii.eqb c sep) eqn:Hc.
  - apply Ascii.eqb_eq in Hc as ->.
    rewrite join_cons by apply split_nonempty. by rewrite IH.
  - destruct (Py.split sep s) as [|w [|w' ws]] eqn:Hs.
    + by destruct (split_nonempty sep s).
    + unfold join in *. simpl in *. by rewrite IH.
    + rewrite join_cons by done. rewrite join_cons in IH by done.
      by rewrite <-IH.
Qed.

(** X4: [split] and [join] are inverse on the string side: joining the
    fields of a string with the separator gives the string back, and no
    field contains the separator; there is always at least one field. *)
Theorem split_join_roundtrip (sep : ascii) (s : string) :
  join sep (Py.split sep s) = s ∧
  Py.split sep s ≠ [] ∧
  Forall (λ w, Py.occurs sep w = false) (Py.split sep s).
Proof.
  split_and!; [apply join_split|apply split_nonempty|apply split_fields_clean].
Qed.

(** X1: a normalized identifier contains no path separator, no dash, no
    underscore and no dot, and lowering leaves it as it is.  Of the builtin
    [str.lower] this uses that lowering twice is lowering once and that
    lowering creates none of the four characters. *)
Theorem normalize_id_clean (repo : string) :
  lower_spec L →
  let tid := normalize_id repo in
  Py.occurs "/" tid = false ∧ Py.occurs "-" tid = false ∧
  Py.occurs "_" tid = false ∧ Py.occurs "." tid = false ∧
  Py.lower tid = tid.
Proof. intros Hlower. by apply normalize_id_normal. Qed.

(** X2: only the part after the last slash counts: a reference with an
    owner prefix has the identifier of the bare name, so references that
    differ in the owner only get the same identifier. *)
Theorem normalize_id_owner (owner name : string) :
  normalize_id (owner +:+ String "/" name) = normalize_id name.
Proof.
  unfold normalize_id. rewrite split_app, last_item_app; [done|apply split_nonempty].
Qed.

Lemma remove_char_comm a b s :
  Py.remove_char a (Py.remove_char b s) = Py.remove_char b (Py.remove_char a s).
Proof.
  induction s as [|c s IH]; simpl; [done|].
  destruct (Ascii.eqb c b) eqn:Hb, (Ascii.eqb c a) eqn:Ha; simpl;
    rewrite ?Ha, ?Hb, ?IH; done.
Qed.

Lemma remove_char_idemp a s :
  Py.remove_char a (Py.remove_char a s) = Py.remove_char a s.
Proof. apply remove_char_clean, occurs_remove_char_same. Qed.

Lemma last_item_split_remove_char c s :
  Ascii.eqb c "/" = false →
  Py.last_item (Py.split "/" (Py.remove_char c s))
  = Py.remove_char c (Py.last_item (Py.split "/" s)).
Proof.
  intros Hc.
  assert (Py.split "/" (Py.remove_char c s) = Py.remove_char c <$> Py.split "/" s) as ->.
  { induction s as [|a s IH]; simpl; [done|].
    destruct (Ascii.eqb a c) eqn:Hac.
    - apply Ascii.eqb_eq in Hac as ->. rewrite Hc, IH.
      destruct (Py.split "/" s) eqn:Hs; simpl;
        [by destruct (split_nonempty "/" s)|].
      by rewrite Ascii.eqb_refl.
    - simpl. destruct (Ascii.eqb a "/"); simpl; [by rewrite IH|].
      rewrite IH. destruct (Py.split "/" s); simpl; by rewrite Hac. }
  unfold Py.last_item. rewrite fmap_last. by destruct (last _).
Qed.

(** X3: the identifier does not see dashes, underscores or dots, wherever
    they are in the reference: removing all occurrences of one of these
    characters from a reference does not change its identifier. *)
Theorem normalize_id_insensitive (repo : string) :
  normalize_id (Py.remove_char "-" repo) = normalize_id repo ∧
  normalize_id (Py.remove_char "_" repo) = normalize_id repo ∧
  normalize_id (Py.remove_char "." repo) = normalize_id repo.
Proof.
  unfold normalize_id. split_and!.
  - rewrite last_item_split_remove_char by done. by rewrite remove_char_idemp.
  - rewrite last_item_split_remove_char by done.
    by rewrite (remove_char_comm "-" "_"), remove_char_idemp.
  - rewrite last_item_split_remove_char by done.
    rewrite (remove_char_comm "-" "."), (remove_char_comm "_" ".").
    by rewrite remove_char_idemp.
Qed.

End NormalizationMore.

(** ** More on the resolver *)

Section ResolverMore.

Context `{L : !Py.Lower}.
Context (T : tables).
Implicit Types (repo : string) (all_tweaks : gmap string string).

(** X5: a record never holds an empty value under an optional key: the
    keys depends_on and headers, when present, hold non-empty lists, and
    pre_build_cmd a non-empty string.  The headers key is absent exactly
    when the header table lists an empty list for the identifier; an
    identifier the table does not have gets the default header. *)
Theorem analyze_tweak_no_empty_values repo all_tweaks :
  let cfg := analyze_tweak T repo all_tweaks in
  Cfg.depends_on cfg ≠ Some [] ∧
  Cfg.headers cfg ≠ Some [] ∧
  Cfg.pre_build_cmd cfg ≠ Some EmptyString ∧
  (Cfg.headers cfg = None ↔ HEADER_DEPENDENCIES T !! make_id repo = Some []) ∧
  (Cfg.depends_on cfg = None ↔
     KNOWN_DEPENDENCIES T !! make_id repo = None ∨
     KNOWN_DEPENDENCIES T !! make_id repo = Some []).
Proof.
  simpl. split_and!.
  - by destruct (default [] (KNOWN_DEPENDENCIES T !! make_id repo)).
  - by destruct (default ["YouTubeHeader"] (HEADER_DEPENDENCIES T !! make_id repo)).
  - by destruct (PRE_BUILD_CMDS T !! make_id repo) as [[|c s]|].
  - destruct (HEADER_DEPENDENCIES T !! make_id repo) as [[|h hs]|]; simpl;
      split; by intros.
  - destruct (KNOWN_DEPENDENCIES T !! make_id repo) as [[|h hs]|]; simpl;
      split; try done; try (by intros [?|?]); auto.
Qed.

(** X6: the record is a function of the identifier, the repo key apart:
    two references with the same identifier resolve to records that agree
    on every other key, whatever [all_tweaks] is passed. *)
Theorem analyze_tweak_by_id repo1 repo2 all_tweaks1 all_tweaks2 :
  make_id repo1 = make_id repo2 →
  let cfg1 := analyze_tweak T repo1 all_tweaks1 in
  let cfg2 := analyze_tweak T repo2 all_tweaks2 in
  Cfg.id cfg1 = Cfg.id cfg2 ∧ Cfg.fetch cfg1 = Cfg.fetch cfg2 ∧
  Cfg.build_cmd cfg1 = Cfg.build_cmd cfg2 ∧
  Cfg.deb_filter cfg1 = Cfg.deb_filter cfg2 ∧
  Cfg.deb_exclude cfg1 = Cfg.deb_exclude cfg2 ∧
  Cfg.depends_on cfg1 = Cfg.depends_on cfg2 ∧
  Cfg.pre_build_cmd cfg1 = Cfg.pre_build_cmd cfg2 ∧
  Cfg.headers cfg1 = Cfg.headers cfg2 ∧
  Cfg.repo cfg1 = repo1 ∧ Cfg.repo cfg2 = repo2.
Proof. intros Hid. unfold analyze_tweak. simpl. rewrite Hid. by split_and!. Qed.

(** X17: when every identifier with a deb filter entry is in the release
    set, no entry is dropped: the record of such an identifier carries the
    fields of its entry. *)
Theorem deb_filters_kept repo all_tweaks (opts : gmap string string) :
  dom (DEB_FILTERS T) ⊆ HAS_RELEASES T →
  DEB_FILTERS T !! make_id repo = Some opts →
  let cfg := analyze_tweak T repo all_tweaks in
  Cfg.fetch cfg = "release" ∧
  Cfg.deb_filter cfg = opts !! "deb_filter" ∧
  Cfg.deb_exclude cfg = opts !! "deb_exclude".
Proof.
  intros Hsub Hopts cfg.
  assert (Cfg.fetch cfg = "release") as Hfetch.
  { unfold cfg. simpl. rewrite decide_True; [done|].
    apply Hsub, elem_of_dom. by rewrite Hopts. }
  split; [done|].
  destruct (analyze_tweak_deb_release T repo all_tweaks Hfetch) as [Hf He].
  fold cfg in Hf, He. rewrite Hf, He, Hopts. done.
Qed.

End ResolverMore.

(** ** More on the loop of the planner *)

Section LoopMore.

Context (graph : gmap string (gset string)) (all_ids : gset string).
Context (nodes : list string) (Hnodes : nodes ≡ₚ elements all_ids).

Lemma kahn_body_empty_queue st : queue st = [] → kahn_body graph nodes st = st.
Proof. intros Hq. unfold kahn_body. by rewrite Hq. Qed.

Lemma iter_inv k :
  planner_inv graph all_ids (Nat.iter k (kahn_body graph nodes) (initial_state graph nodes)).
Proof.
  induction k as [|k IH]; simpl.
  - by apply inv_init.
  - destruct (queue (Nat.iter k (kahn_body graph nodes) (initial_state graph nodes)))
      eqn:Hq.
    + by rewrite kahn_body_empty_queue.
    + apply inv_body; [done..|]. by rewrite Hq.
Qed.

(** X10: the loop of the planner ends: from its initial state it reaches
    an empty queue within as many rounds as there are nodes, whatever the
    graph, and any larger bound on the rounds gives the same final state. *)
Theorem kahn_loop_terminates :
  ∃ st, queue st = [] ∧ (length (result st) ≤ size all_ids)%nat ∧
        ∀ fuel, size all_ids < fuel →
                kahn_loop graph nodes fuel (initial_state graph nodes) = Some st.
Proof.
  destruct (inv_loop graph all_ids nodes Hnodes (S (size all_ids))
              (initial_state graph nodes)) as (st & Hloop & Hinv & Hq).
  { by apply inv_init. }
  { simpl. lia. }
  exists st. split_and!; [done| |].
  - by eapply final_length.
  - intros fuel Hfuel. eapply kahn_loop_more_fuel; [done|lia].
Qed.

(** X18: after any number of rounds every node has a counter, and the
    counter is the number of the node's dependencies that are not in the
    result yet; so no subscript of [in_degree] fails and no counter goes
    below zero. *)
Theorem in_degree_counts (k : nat) (x : string) :
  x ∈ all_ids →
  let st := Nat.iter k (kahn_body graph nodes) (initial_state graph nodes) in
  in_degree st !! x
  = Some (Z.of_nat (size (graph_get graph x ∖ list_to_set (result st)))).
Proof. intros Hx st. destruct (iter_inv k) as (_ & _ & Hdeg & _). by apply Hdeg. Qed.

(** One round keeps [least_inv]. *)
Lemma least_body st :
  planner_inv graph all_ids st → least_inv graph all_ids st → queue st ≠ [] →
  least_inv graph all_ids (kahn_body graph nodes st).
Proof.
  intros (_ & Hmem & _) Hleast Hq.
  destruct (kahn_body_pops_least graph nodes st Hq) as (node & Hres & Hnode & Hmin).
  intros k x y. rewrite Hres. intros Hk (Hy & Hyr & Hdeps).
  destruct (decide (k < length (result st))) as [Hlt|Hge].
  - rewrite lookup_app_l in Hk by done. rewrite take_app_le in Hyr, Hdeps by lia.
    by apply (Hleast k x y).
  - assert (k = length (result st)) as ->.
    { apply lookup_lt_Some in Hk. rewrite length_app in Hk. simpl in Hk. lia. }
    rewrite list_lookup_middle in Hk by done. injection Hk as <-.
    rewrite take_app_length in Hyr, Hdeps.
    apply Hmin. assert (y ∈ result st ++ queue st) as Hin by (by apply Hmem).
    by apply elem_of_app in Hin as [?|?].
Qed.

Lemma least_loop fuel st st' :
  planner_inv graph all_ids st → least_inv graph all_ids st →
  kahn_loop graph nodes fuel st = Some st' → least_inv graph all_ids st'.
Proof.
  revert st. induction fuel as [|fuel IH]; intros st Hinv Hleast; simpl;
    destruct (queue st) as [|x q] eqn:Hq; try (by intros [= <-]); try done.
  apply IH.
  - apply inv_body; [done..|]. by rewrite Hq.
  - apply least_body; [done..|]. by rewrite Hq.
Qed.

Lemma least_init : least_inv graph all_ids (initial_state graph nodes).
Proof. intros k x y Hk. simpl in Hk. by rewrite lookup_nil in Hk. Qed.

End LoopMore.

(** ** When the planner warns, and which order it picks *)

Section PlannerMore.

Context (set_iter : gset string → list string) (Hiter : set_iter_spec set_iter).

(** The final state of the loop also satisfies [least_inv]. *)
Lemma topological_sort_final_least configs :
  ∃ st, planner_inv (build_graph configs).1 (build_graph configs).2 st ∧
        least_inv (build_graph configs).1 (build_graph configs).2 st ∧
        queue st = [] ∧
        topological_sort set_iter configs =
          Some (if decide (length (result st) ≠ size (build_graph configs).2)
                then (Py.sorted (set_iter (build_graph configs).2), true)
                else (result st, false)).
Proof.
  unfold topological_sort. destruct (build_graph configs) as [graph all_ids].
  cbn [fst snd]. cbv zeta. pose proof (Hiter all_ids) as Hnodes.
  destruct (inv_loop graph all_ids (set_iter all_ids) Hnodes
              (S (length (set_iter all_ids))) _
              (inv_init graph all_ids (set_iter all_ids) Hnodes))
    as (st & Hloop & Hinv & Hq).
  { simpl. rewrite (set_iter_length _ _ Hiter). lia. }
  exists st. split_and!; [done| |done|].
  - eapply least_loop; [done|by apply inv_init| |done]. apply least_init.
  - rewrite Hloop. simpl. by case_decide.
Qed.

(** A result that misses a node, with closed dependencies, shows a cycle. *)
Lemma incomplete_cyclic configs st :
  planner_inv (build_graph configs).1 (build_graph configs).2 st →
  queue st = [] → closed configs →
  length (result st) ≠ size (build_graph configs).2 →
  cyclic configs.
Proof.
  intros Hinv Hq Hclosed Hlen. apply (final_incomplete _ _ _ Hinv) in Hlen.
  set (graph := (build_graph configs).1) in *.
  set (all_ids := (build_graph configs).2) in *.
  destruct (no_sink_cycle (size (all_ids ∖ list_to_set (result st)))
              (λ x y, y ∈ graph_get graph x) (λ x y, decide (y ∈ graph_get graph x))
              (all_ids ∖ list_to_set (result st))) as [x Hx]; [done..| |].
  - intros x [Hx Hxr]%elem_of_difference. rewrite elem_of_list_to_set in Hxr.
    destruct (final_missing_dependency _ _ _ Hinv Hq x Hx Hxr) as (y & Hy & Hyr).
    exists y. split; [|done]. apply elem_of_difference.
    rewrite elem_of_list_to_set. split; [|done].
    apply build_graph_ids, (Hclosed x). by apply build_graph_edge.
  - exists x. revert Hx. apply tc_subrel. intros a b Hab.
    by apply tc_once, build_graph_edge.
Qed.

(** The warning flag of the planner on consistent records. *)
Lemma warning_iff configs order warned :
  consistent configs →
  topological_sort set_iter configs = Some (order, warned) →
  (warned = false ↔ closed configs ∧ acyclic configs) ∧
  (warned = true → order = Py.sorted (set_iter (build_graph configs).2)) ∧
  (warned = false → respects_dependencies configs order).
Proof.
  intros Hcons.
  destruct (topological_sort_final set_iter Hiter configs) as (st & Hinv & Hq & ->).
  case_decide as Hlen; intros [= <- <-].
  - split_and!; [|done|done]. split; [done|]. intros [Hclosed Hacyclic].
    destruct (incomplete_cyclic configs st) as [x Hx]; [done..|].
    by destruct (Hacyclic x).
  - destruct (complete_closed_acyclic configs st) as (Hedge & ? & ?); [done..|].
    split_and!; [done|done|]. intros _ cfg y Hcfg Hy. apply Hedge. by exists cfg.
Qed.

(** X11: on consistent records the planner warns exactly when some declared
    dependency has no record or the dependencies have a cycle.  In both
    cases the ordering lists every identifier of a record exactly once and
    nothing else.  Without the warning it honours every dependency; with it
    it is these identifiers in strictly ascending order, that is
    [sorted(all_ids)], dependencies ignored. *)
Theorem topological_sort_warning_iff (configs : list Cfg.t) :
  consistent configs →
  ∃ order warned,
    topological_sort set_iter configs = Some (order, warned) ∧
    (warned = false ↔ closed configs ∧ acyclic configs) ∧
    lists_each_id_once configs order ∧
    (warned = false → respects_dependencies configs order) ∧
    (warned = true →
       ascending order ∧ order = Py.sorted (set_iter (build_graph configs).2)).
Proof.
  intros Hcons.
  destruct (topological_sort_lists_ids set_iter Hiter configs)
    as (order & warned & Hsort & Hids).
  destruct (warning_iff configs order warned Hcons Hsort) as (Hiff & Hsorted & Hresp).
  exists order, warned. split_and!; [done..|].
  intros Hwarn. split; [|by apply Hsorted].
  rewrite (Hsorted Hwarn). apply sorted_ascending. by apply set_iter_NoDup.
Qed.

(** X12: the ordering returned without the warning is the least one: any
    other ordering of the identifiers that honours the dependencies has, at
    the first position where the two differ, the lexicographically larger
    identifier. *)
Theorem topological_sort_least (configs : list Cfg.t) (order l' : list string) :
  topological_sort set_iter configs = Some (order, false) →
  lists_each_id_once configs l' →
  respects_dependencies configs l' →
  ∀ k x y, take k order = take k l' →
           order !! k = Some x → l' !! k = Some y → String.le x y.
Proof.
  destruct (topological_sort_final_least configs) as (st & Hinv & Hleast & Hq & ->).
  case_decide as Hlen; [done|]. intros [= <-] [Hnd Hids] Hresp k x y Htake Hx Hy.
  apply (Hleast k x y Hx). rewrite Htake. split_and!.
  - apply build_graph_ids, Hids. by eapply list_elem_of_lookup_2.
  - intros (i & Hi & Hik)%elem_of_take.
    assert (i = k) by (by eapply NoDup_lookup). lia.
  - intros d (cfg & Hcfg & Hid & Hd)%build_graph_edge.
    destruct (Hresp cfg d Hcfg Hd) as (i & j & Hi & Hj & Hij). rewrite Hid in Hj.
    assert (j = k) as -> by (by eapply NoDup_lookup).
    apply elem_of_list_to_set, elem_of_take. by exists i.
Qed.

End PlannerMore.

(** ** More on main *)

Section MainMore.

Context `{L : !Py.Lower}.
Context (T : tables).
Context (set_iter : gset string → list string) (Hiter : set_iter_spec set_iter).

(** What a returned output is made of. *)
Lemma main_inv tweakslist out :
  main T set_iter tweakslist = Returned out →
  tweakslist ≠ [] ∧
  out_tweakslist out = filter (λ repo, ¬ skipped T (make_id repo)) tweakslist ∧
  out_config out = (λ repo, analyze_tweak T repo ∅) <$> out_tweakslist out ∧
  topological_sort set_iter (out_config out)
    = Some (out_build_order out, out_cycle_warning out) ∧
  required_headers (out_metadata out) = collect_all_headers set_iter (out_config out) ∧
  out_headers out = resolve_headers T (required_headers (out_metadata out)) ∧
  total_tweaks (out_metadata out) = length (out_tweakslist out) ∧
  successfully_analyzed (out_metadata out) = length (out_config out).
Proof.
  unfold main. destruct tweakslist as [|repo l]; [done|]. simpl truthy_list. cbv iota.
  pose proof (split_skipped_active T (repo :: l)) as Hactive.
  destruct (split_skipped T (repo :: l)) as [sk ac]. simpl in Hactive.
  destruct (topological_sort _ _) as [[order warned]|] eqn:Hsort; [|done].
  intros [= <-]. simpl. by split_and!.
Qed.

(** X7: the filter loop loses nothing: the skipped references are the
    input references whose identifier is in the exclusion table, each with
    the reason the table gives, the active references are the others, both
    in input order, and together they are as many as the input. *)
Theorem split_skipped_partition (tweakslist : list string) :
  (split_skipped T tweakslist).1.*1
    = filter (λ repo, skipped T (make_id repo)) tweakslist ∧
  (split_skipped T tweakslist).2
    = filter (λ repo, ¬ skipped T (make_id repo)) tweakslist ∧
  Forall (λ p, SKIPPED_TWEAKS T !! make_id p.1 = Some p.2)
         (split_skipped T tweakslist).1 ∧
  length (split_skipped T tweakslist).1 + length (split_skipped T tweakslist).2
    = length tweakslist.
Proof.
  split_and!; [| apply split_skipped_active | |].
  - unfold split_skipped, skipped.
    induction tweakslist as [|repo l IH] using rev_ind; [done|].
    rewrite foldl_snoc, filter_app. destruct (foldl _ _ l) as [sk ac].
    simpl in IH. rewrite <-IH.
    destruct (SKIPPED_TWEAKS T !! make_id repo) as [reason|] eqn:Hs; simpl.
    + rewrite fmap_app, filter_cons_True; [done|]. by rewrite Hs.
    + rewrite filter_cons_False, filter_nil, app_nil_r; [done|].
      rewrite Hs. by intros [? ?].
  - apply Forall_forall. intros [repo reason] Hin.
    by apply split_skipped_reported in Hin as [_ ?].
  - unfold split_skipped.
    induction tweakslist as [|repo l IH] using rev_ind; [done|].
    rewrite foldl_snoc, length_app. destruct (foldl _ _ l) as [sk ac].
    simpl in *. destruct (SKIPPED_TWEAKS T !! make_id repo); simpl;
      rewrite length_app; simpl; lia.
Qed.

Lemma set_iter_empty : set_iter ∅ = [].
Proof. apply Permutation_nil_r. by rewrite (Hiter ∅), elements_empty. Qed.

(** X8: the emptiness check of [main] comes before the filter: a non-empty
    list whose references are all excluded does not exit; [main] writes an
    output with no reference, no record, an empty build order, no header
    and no warning. *)
Theorem main_all_skipped (tweakslist : list string) :
  tweakslist ≠ [] →
  Forall (λ repo, skipped T (make_id repo)) tweakslist →
  main T set_iter tweakslist = Returned empty_output.
Proof.
  intros Hne Hall. unfold main. destruct tweakslist as [|repo l]; [done|].
  simpl truthy_list. cbv iota.
  pose proof (split_skipped_active T (repo :: l)) as Hactive.
  destruct (split_skipped T (repo :: l)) as [sk ac]. simpl in Hactive.
  assert (ac = []) as ->.
  { rewrite Hactive. clear Hactive Hne.
    induction Hall as [|r rs Hr _ IH]; [done|].
    rewrite filter_cons_False; [done|]. intros Hn. by apply Hn. }
  unfold topological_sort, collect_all_headers. simpl.
  rewrite set_iter_empty. done.
Qed.

(** X9: the two counts of the metadata block are always equal: both are
    the number of active references, which is the number of records and at
    most the number of input references.  The build order has at most that
    many entries, and exactly that many when no two active references have
    the same identifier. *)
Theorem main_counts (tweakslist : list string) (out : output) :
  main T set_iter tweakslist = Returned out →
  total_tweaks (out_metadata out) = successfully_analyzed (out_metadata out) ∧
  total_tweaks (out_metadata out) = length (out_config out) ∧
  (total_tweaks (out_metadata out) ≤ length tweakslist)%nat ∧
  (length (out_build_order out) ≤ total_tweaks (out_metadata out))%nat ∧
  (length (out_build_order out) = total_tweaks (out_metadata out)
   ↔ NoDup (make_id <$> out_tweakslist out)).
Proof.
  intros (_ & Hactive & Hconfigs & Hsort & _ & _ & Htotal & Hdone)%main_inv.
  destruct (topological_sort_lists_ids set_iter Hiter (out_config out))
    as (order & warned & Hsort' & Hnd & Hmem).
  rewrite Hsort in Hsort'. injection Hsort' as <- <-.
  assert (record_ids (out_config out) = make_id <$> out_tweakslist out) as Hids.
  { unfold record_ids. rewrite Hconfigs, <-list_fmap_compose. done. }
  rewrite Hids in Hmem.
  assert (length (out_config out) = length (out_tweakslist out)) as Hlen
    by (by rewrite Hconfigs, length_fmap).
  assert (out_build_order out ⊆+ make_id <$> out_tweakslist out) as Hsub.
  { apply NoDup_submseteq; [done|]. intros x. apply Hmem. }
  rewrite Htotal, Hdone, Hlen. split_and!; [done..| | |].
  - rewrite Hactive. apply length_filter.
  - apply submseteq_length in Hsub. by rewrite length_fmap in Hsub.
  - rewrite <-(length_fmap make_id (out_tweakslist out)). split.
    + intros Heq. rewrite <-(submseteq_length_Permutation _ _ Hsub); [done|lia].
    + intros Hnd'. apply Nat.le_antisymm; [by apply submseteq_length|].
      apply submseteq_length, NoDup_submseteq; [done|]. intros x. apply Hmem.
Qed.

End MainMore.

(** ** The output and the order of the input *)

Section InputOrder.

Context `{L : !Py.Lower}.

Lemma collect_all_headers_perm set_iter1 set_iter2 configs1 configs2 :
  set_iter_spec set_iter1 → set_iter_spec set_iter2 → configs1 ≡ₚ configs2 →
  collect_all_headers set_iter1 configs1 = collect_all_headers set_iter2 configs2.
Proof.
  intros H1 H2 Hp. unfold collect_all_headers.
  assert (foldl (λ (all_headers : gset string) cfg,
                   all_headers ∪ list_to_set (Cfg.get_headers cfg)) ∅ configs1
          = foldl (λ (all_headers : gset string) cfg,
                   all_headers ∪ list_to_set (Cfg.get_headers cfg)) ∅ configs2) as ->.
  { apply set_eq. intros h. rewrite !all_headers_elem_of.
    split; intros (cfg & Hcfg & Hh); exists cfg; (split; [|done]).
    - by rewrite <-Hp.
    - by rewrite Hp. }
  apply sorted_ext. by rewrite (H1 _), (H2 _).
Qed.

(** X13: when no two references have the same identifier, the order of
    the input list does not matter to the plan: a permuted list, under any
    iteration order of sets, gives the same build order, the same warning,
    the same required headers and header locations, and the same records
    up to order. *)
Theorem main_input_order (T : tables)
    (set_iter1 set_iter2 : gset string → list string)
    (tweakslist1 tweakslist2 : list string) (out1 out2 : output) :
  set_iter_spec set_iter1 → set_iter_spec set_iter2 →
  tweakslist1 ≡ₚ tweakslist2 → NoDup (make_id <$> tweakslist1) →
  main T set_iter1 tweakslist1 = Returned out1 →
  main T set_iter2 tweakslist2 = Returned out2 →
  out_build_order out1 = out_build_order out2 ∧
  out_cycle_warning out1 = out_cycle_warning out2 ∧
  required_headers (out_metadata out1) = required_headers (out_metadata out2) ∧
  out_headers out1 = out_headers out2 ∧
  out_config out1 ≡ₚ out_config out2.
Proof.
  intros H1 H2 Hp Hnd
    (_ & Hact1 & Hcfg1 & Hsort1 & Hreq1 & Hhdr1 & _)%main_inv
    (_ & Hact2 & Hcfg2 & Hsort2 & Hreq2 & Hhdr2 & _)%main_inv.
  assert (out_tweakslist out1 ≡ₚ out_tweakslist out2) as Hactive
    by (by rewrite Hact1, Hact2, Hp).
  assert (out_config out1 ≡ₚ out_config out2) as Hconfigs
    by (by rewrite Hcfg1, Hcfg2, Hactive).
  assert (NoDup (record_ids (out_config out1))) as Hids.
  { unfold record_ids. rewrite Hcfg1, <-list_fmap_compose.
    eapply sublist_NoDup; [exact Hnd|].
    change (Cfg.id ∘ _) with make_id. rewrite Hact1.
    apply fmap_sublist, sublist_filter. }
  pose proof (topological_sort_records_order set_iter1 set_iter2 _ _ H1 H2
                Hconfigs Hids) as Hsort.
  rewrite Hsort1, Hsort2 in Hsort. injection Hsort as Hord Hwarn.
  assert (required_headers (out_metadata out1) = required_headers (out_metadata out2))
    as Hreq by (rewrite Hreq1, Hreq2; by apply collect_all_headers_perm).
  split_and!; [done..| |done]. by rewrite Hhdr1, Hhdr2, Hreq.
Qed.

End InputOrder.

(** ** Tables that lose nothing *)

Section Coherence.

Context `{L : !Py.Lower}.
Context (T : tables).
Context (set_iter : gset string → list string) (Hiter : set_iter_spec set_iter).

(** X14: when the registry has a location for the default header and for
    every header the header table names, no required header is left out of
    the output: the resolved mapping has an entry for each of them, and no
    other entry. *)
Theorem main_headers_all_resolved (tweakslist : list string) (out : output) :
  "YouTubeHeader" ∈ dom (HEADER_REPOS T) →
  map_Forall (λ _ hs, Forall (λ h, h ∈ dom (HEADER_REPOS T)) hs)
             (HEADER_DEPENDENCIES T) →
  main T set_iter tweakslist = Returned out →
  ∀ h, h ∈ dom (out_headers out) ↔ h ∈ required_headers (out_metadata out).
Proof.
  intros Hdefault Hall (_ & _ & Hcfg & _ & Hreq & Hhdr & _)%main_inv h.
  rewrite Hhdr, elem_of_dom, resolve_headers_lookup.
  case_decide as Hh; [|split; [by intros [? ?]|done]].
  split; [done|]. intros _. apply elem_of_dom.
  rewrite Hreq in Hh. unfold collect_all_headers in Hh. cbv zeta in Hh.
  rewrite sorted_elem_of, (set_iter_elem_of _ _ _ Hiter) in Hh.
  apply all_headers_elem_of in Hh as (cfg & Hin & Hh).
  rewrite Hcfg in Hin. apply list_elem_of_fmap in Hin as (repo & -> & _).
  revert Hh. unfold Cfg.get_headers. simpl.
  destruct (HEADER_DEPENDENCIES T !! make_id repo) as [hs|] eqn:Hhs; simpl.
  - apply Hall in Hhs. destruct hs as [|h' hs']; simpl; [by intros ?%elem_of_nil|].
    intros Hh. by eapply Forall_forall in Hhs.
  - by intros ->%list_elem_of_singleton.
Qed.

(** X15: when every identifier with a pre-build command is in the
    exclusion table, the commands are moot: no record of the output has a
    pre_build_cmd key. *)
Theorem main_pre_build_cmd_moot (tweakslist : list string) (out : output) :
  dom (PRE_BUILD_CMDS T) ⊆ dom (SKIPPED_TWEAKS T) →
  main T set_iter tweakslist = Returned out →
  ∀ cfg, cfg ∈ out_config out → Cfg.pre_build_cmd cfg = None.
Proof.
  intros Hsub (_ & Hact & Hcfg & _)%main_inv cfg Hin.
  rewrite Hcfg in Hin. apply list_elem_of_fmap in Hin as (repo & -> & Hrepo).
  rewrite Hact in Hrepo. apply list_elem_of_filter in Hrepo as [Hskip _].
  simpl. destruct (PRE_BUILD_CMDS T !! make_id repo) as [cmd|] eqn:Hcmd; [|done].
  destruct Hskip. apply elem_of_dom, Hsub, elem_of_dom. by rewrite Hcmd.
Qed.

End Coherence.

(** ** The warning with the tables of the source *)

Section SourceTables.

Context `{L : !Py.Lower}.
Context (set_iter : gset string → list string) (Hiter : set_iter_spec set_iter).

(** Every entry of the dependency table of the source names
    ytvideooverlay alone, and ytvideooverlay has no entry. *)
Lemma known_dependencies_shape tid deps :
  KNOWN_DEPENDENCIES analyzer_tables !! tid = Some deps →
  deps = ["ytvideooverlay"] ∧ tid ≠ "ytvideooverlay".
Proof.
  assert (map_Forall (λ tid deps, deps = ["ytvideooverlay"] ∧ tid ≠ "ytvideooverlay")
            (KNOWN_DEPENDENCIES analyzer_tables)) as Hall by (by compute_done).
  apply Hall.
Qed.

Lemma analyzer_depends (tweakslist : list string) x y :
  depends ((λ repo, analyze_tweak analyzer_tables repo ∅) <$> tweakslist) x y ↔
  x ∈ make_id <$> tweakslist ∧
  is_Some (KNOWN_DEPENDENCIES analyzer_tables !! x) ∧ y = "ytvideooverlay".
Proof.
  split.
  - intros (cfg & (repo & -> & Hrepo)%list_elem_of_fmap & <- & Hy).
    rewrite analyze_tweak_depends_on in Hy. rewrite analyze_tweak_id.
    split; [by apply list_elem_of_fmap_2|].
    destruct (KNOWN_DEPENDENCIES analyzer_tables !! make_id repo) as [deps|] eqn:Hd;
      simpl in Hy; [|by apply elem_of_nil in Hy].
    apply known_dependencies_shape in Hd as [-> _].
    apply list_elem_of_singleton in Hy. by split.
  - intros ((repo & -> & Hrepo)%list_elem_of_fmap & [deps Hdeps] & ->).
    exists (analyze_tweak analyzer_tables repo ∅). split_and!; [|done|].
    + by apply (list_elem_of_fmap_2 (λ r, analyze_tweak analyzer_tables r ∅)).
    + rewrite analyze_tweak_depends_on, Hdeps. simpl.
      apply known_dependencies_shape in Hdeps as [-> _]. left.
Qed.

(** No list of references gives a cycle with the tables of the source. *)
Lemma analyzer_acyclic (tweakslist : list string) :
  acyclic ((λ repo, analyze_tweak analyzer_tables repo ∅) <$> tweakslist).
Proof.
  assert (∀ x y,
    tc (depends ((λ repo, analyze_tweak analyzer_tables repo ∅) <$> tweakslist)) x y →
    is_Some (KNOWN_DEPENDENCIES analyzer_tables !! x) ∧ y = "ytvideooverlay") as Hpath.
  { intros x y Hxy. induction Hxy as [x y Hxy|x y z Hxy _ [_ ->]].
    - by apply analyzer_depends in Hxy as (_ & ? & ?).
    - by apply analyzer_depends in Hxy as (_ & ? & _). }
  intros x [[deps Hdeps] ->]%Hpath.
  by apply known_dependencies_shape in Hdeps as [_ ?].
Qed.

(** X16: with the tables of the source the dependencies never have a
    cycle, and the circular-dependency warning is printed exactly when
    some active reference has an entry in the dependency table while no
    active reference has the identifier ytvideooverlay. *)
Theorem analyzer_warning_iff (tweakslist : list string) (out : output) :
  main analyzer_tables set_iter tweakslist = Returned out →
  acyclic (out_config out) ∧
  (out_cycle_warning out = true ↔
   ("ytvideooverlay" ∉ make_id <$> out_tweakslist out) ∧
   ∃ repo, repo ∈ out_tweakslist out ∧
           is_Some (KNOWN_DEPENDENCIES analyzer_tables !! make_id repo)).
Proof.
  intros (_ & _ & Hcfg & Hsort & _)%main_inv.
  assert (consistent (out_config out)) as Hcons
    by (rewrite Hcfg; apply analyze_tweak_consistent).
  assert (acyclic (out_config out)) as Hacyclic
    by (rewrite Hcfg; apply analyzer_acyclic).
  assert (record_ids (out_config out) = make_id <$> out_tweakslist out) as Hids.
  { unfold record_ids. rewrite Hcfg at 1. by rewrite <-list_fmap_compose. }
  destruct (warning_iff set_iter Hiter _ _ _ Hcons Hsort) as (Hiff & _ & _).
  split; [done|]. split.
  - intros Hwarn.
    assert (¬ closed (out_config out)) as Hopen.
    { intros Hclosed. destruct Hiff as [_ Hfalse].
      rewrite Hfalse in Hwarn by done. done. }
    split.
    + intros Hin. apply Hopen. intros x y Hxy. rewrite Hcfg in Hxy.
      apply analyzer_depends in Hxy as (_ & _ & ->). by rewrite Hids.
    + destruct (decide (Exists (λ repo,
                  is_Some (KNOWN_DEPENDENCIES analyzer_tables !! make_id repo))
                  (out_tweakslist out))) as [Hex|Hnone].
      { apply Exists_exists in Hex as (repo & ? & ?). by exists repo. }
      destruct Hopen. intros x y Hxy. rewrite Hcfg in Hxy.
      apply analyzer_depends in Hxy as ((repo & -> & Hrepo)%list_elem_of_fmap & Hsome & _).
      destruct Hnone. apply Exists_exists. by exists repo.
  - intros [Hmissing (repo & Hrepo & Hsome)].
    destruct (out_cycle_warning out); [done|]. exfalso.
    destruct Hiff as [[Hclosed _] _]; [done|].
    apply Hmissing. rewrite <-Hids. apply (Hclosed (make_id repo)).
    rewrite Hcfg. apply analyzer_depends. split_and!; [|done..].
    by apply list_elem_of_fmap_2.
Qed.

End SourceTables.

(** ** The further properties at concrete inputs *)

Section RunsMore.

Local Existing Instance Py.ascii_Lower.

(** X1 on an ASCII reference with all three separators. *)
Lemma normalize_id_clean_witness :
  let tid := normalize_id "PoomSmart/YouTube-Header_x.y" in
  lower_spec Py.ascii_Lower ∧
  Py.occurs "/" tid = false ∧ Py.occurs "-" tid = false ∧
  Py.occurs "_" tid = false ∧ Py.occurs "." tid = false ∧
  Py.lower tid = tid.
Proof.
  intros tid. split; [apply ascii_lower_spec|].
  apply (normalize_id_clean "PoomSmart/YouTube-Header_x.y"), ascii_lower_spec.
Defined.

(** X6 on two references to forks of one tweak. *)
Lemma analyze_tweak_by_id_witness :
  let cfg1 := analyze_tweak analyzer_tables "PoomSmart/YouPiP" ∅ in
  let cfg2 := analyze_tweak analyzer_tables "fork/you-pip" {["youpip" := "fork/you-pip"]} in
  make_id "PoomSmart/YouPiP" = make_id "fork/you-pip" ∧
  Cfg.depends_on cfg1 = Cfg.depends_on cfg2 ∧ Cfg.headers cfg1 = Cfg.headers cfg2 ∧
  Cfg.repo cfg1 ≠ Cfg.repo cfg2.
Proof.
  intros cfg1 cfg2. split; [by vm_compute|].
  destruct (analyze_tweak_by_id analyzer_tables "PoomSmart/YouPiP" "fork/you-pip"
              ∅ {["youpip" := "fork/you-pip"]})
    as (_ & _ & _ & _ & _ & Hdeps & _ & Hheaders & _ & _); [by vm_compute|].
  split_and!; [done..|by vm_compute].
Defined.

(** X17 on the tables of the source, where both filter entries are for
    release identifiers. *)
Lemma deb_filters_kept_witness :
  let cfg := analyze_tweak analyzer_tables "dayanch96/YTLite" ∅ in
  dom (DEB_FILTERS analyzer_tables) ⊆ HAS_RELEASES analyzer_tables ∧
  Cfg.fetch cfg = "release" ∧
  Cfg.deb_filter cfg = Some "iphoneos-arm64" ∧
  Cfg.deb_exclude cfg = Some "roothide".
Proof.
  intros cfg. split; [by compute_done|].
  destruct (deb_filters_kept analyzer_tables "dayanch96/YTLite" ∅
              (list_to_map [("deb_filter", "iphoneos-arm64"); ("deb_exclude", "roothide")]))
    as (Hfetch & Hfilter & Hexclude); [by compute_done|by vm_compute|].
  split_and!; [done|exact Hfilter|exact Hexclude].
Defined.

(** X10 on a graph with a node that never becomes ready. *)
Lemma kahn_loop_terminates_witness :
  let graph : gmap string (gset string) :=
    list_to_map [("a", ∅); ("b", {["a"]}); ("c", {["zz"]})] in
  let all_ids : gset string := list_to_set ["a"; "b"; "c"] in
  ∃ st, queue st = [] ∧ (length (result st) ≤ size all_ids)%nat ∧
        ∀ fuel, size all_ids < fuel →
                kahn_loop graph (elements all_ids) fuel
                  (initial_state graph (elements all_ids)) = Some st.
Proof.
  intros graph all_ids.
  exact (kahn_loop_terminates graph all_ids (elements all_ids) (reflexivity _)).
Defined.

(** X18 on the same graph, after one round. *)
Lemma in_degree_counts_witness :
  let graph : gmap string (gset string) :=
    list_to_map [("a", ∅); ("b", {["a"]}); ("c", {["zz"]})] in
  let all_ids : gset string := list_to_set ["a"; "b"; "c"] in
  let st := Nat.iter 1 (kahn_body graph (elements all_ids))
              (initial_state graph (elements all_ids)) in
  in_degree st !! "b"
  = Some (Z.of_nat (size (graph_get graph "b" ∖ list_to_set (result st)))).
Proof.
  intros graph all_ids.
  apply (in_degree_counts graph all_ids (elements all_ids) (reflexivity _) 1 "b").
  by compute_done.
Defined.

(** X11 on records with a dependency that no record has. *)
Lemma topological_sort_warning_iff_witness :
  let configs := record_of <$> [("a", ["b"]); ("b", ["zz"])] in
  ∃ order warned,
    topological_sort elements configs = Some (order, warned) ∧
    (warned = false ↔ closed configs ∧ acyclic configs) ∧
    lists_each_id_once configs order ∧
    (warned = false → respects_dependencies configs order) ∧
    (warned = true →
       ascending order ∧ order = Py.sorted (elements (build_graph configs).2)).
Proof.
  intros configs.
  apply (topological_sort_warning_iff elements set_iter_spec_elements configs).
  apply unique_ids_consistent. by compute_done.
Defined.

(** X12 on the example of the specification against the ordering a, c, b. *)
Lemma topological_sort_least_witness :
  let configs := record_of <$> [("a", []); ("b", ["a"]); ("c", ["a"])] in
  topological_sort elements configs = Some (["a"; "b"; "c"], false) ∧
  String.le "b" "c".
Proof.
  intros configs. split; [by vm_compute|].
  apply (topological_sort_least elements set_iter_spec_elements configs
           ["a"; "b"; "c"] ["a"; "c"; "b"]) with (k := 1); try (by vm_compute).
  - split; [by compute_done|]. intros x. vm_compute record_ids.
    rewrite !elem_of_cons, !elem_of_nil. tauto.
  - intros cfg y Hcfg Hy. unfold configs in Hcfg. simpl in Hcfg.
    repeat (apply elem_of_cons in Hcfg as [->|Hcfg]);
      [..|by apply elem_of_nil in Hcfg]; simpl in Hy.
    + by apply elem_of_nil in Hy.
    + apply list_elem_of_singleton in Hy as ->.
      exists 0, 2. split_and!; [done..|lia].
    + apply list_elem_of_singleton in Hy as ->.
      exists 0, 1. split_and!; [done..|lia].
Defined.

(** X8 on the one reference the source excludes. *)
Lemma main_all_skipped_witness :
  main analyzer_tables elements ["arichornlover/YouTimeStamp"] = Returned empty_output.
Proof.
  apply (main_all_skipped analyzer_tables elements set_iter_spec_elements);
    [done|by compute_done].
Defined.

(** X9 on a list in which two references have the same identifier. *)
Lemma main_counts_witness :
  let tweakslist := ["PoomSmart/YouPiP"; "fork/you-pip"; "arichornlover/YouTimeStamp";
                     "PoomSmart/YTVideoOverlay"] in
  ∃ out, main analyzer_tables elements tweakslist = Returned out ∧
    total_tweaks (out_metadata out) = 3 ∧
    out_build_order out = ["ytvideooverlay"; "youpip"] ∧
    total_tweaks (out_metadata out) = successfully_analyzed (out_metadata out) ∧
    total_tweaks (out_metadata out) = length (out_config out) ∧
    (total_tweaks (out_metadata out) ≤ length tweakslist)%nat ∧
    (length (out_build_order out) ≤ total_tweaks (out_metadata out))%nat ∧
    (length (out_build_order out) = total_tweaks (out_metadata out)
     ↔ NoDup (make_id <$> out_tweakslist out)).
Proof.
  intros tweakslist. eexists. split; [by vm_compute|].
  split; [by vm_compute|]. split; [by vm_compute|].
  apply (main_counts analyzer_tables elements set_iter_spec_elements tweakslist).
  by vm_compute.
Defined.

(** X13 on a list and its reverse, iterated forward and backward. *)
Lemma main_input_order_witness :
  let tweakslist := ["PoomSmart/YouPiP"; "dayanch96/YTLite"; "PoomSmart/YTVideoOverlay"] in
  ∃ out1 out2,
    main analyzer_tables elements tweakslist = Returned out1 ∧
    main analyzer_tables (λ s, reverse (elements s)) (reverse tweakslist) = Returned out2 ∧
    out_build_order out1 = out_build_order out2 ∧
    out_cycle_warning out1 = out_cycle_warning out2 ∧
    required_headers (out_metadata out1) = required_headers (out_metadata out2) ∧
    out_headers out1 = out_headers out2 ∧
    out_config out1 ≡ₚ out_config out2.
Proof.
  intros tweakslist. eexists _, _. split; [by vm_compute|]. split; [by vm_compute|].
  apply (main_input_order analyzer_tables elements (λ s, reverse (elements s))
           tweakslist (reverse tweakslist));
    [apply set_iter_spec_elements|apply set_iter_spec_reverse
    |by rewrite reverse_Permutation|by compute_done|by vm_compute..].
Defined.

(** X14 on the tables of the source, whose headers all have a location. *)
Lemma main_headers_all_resolved_witness :
  let tweakslist := ["dayanch96/YTLite"; "therealFoxster/DontEatMyContent"] in
  ∃ out, main analyzer_tables elements tweakslist = Returned out ∧
    required_headers (out_metadata out) = ["PSHeader"; "YTHeaders"; "YouTubeHeader"] ∧
    ∀ h, h ∈ dom (out_headers out) ↔ h ∈ required_headers (out_metadata out).
Proof.
  intros tweakslist. eexists. split; [by vm_compute|]. split; [by vm_compute|].
  apply (main_headers_all_resolved analyzer_tables elements set_iter_spec_elements
           tweakslist); [by compute_done|by compute_done|by vm_compute].
Defined.

(** X15 on the tables of the source, whose one pre-build command is for
    an excluded identifier. *)
Lemma main_pre_build_cmd_moot_witness :
  let tweakslist := ["arichornlover/YouTimeStamp"; "PoomSmart/YTVideoOverlay"] in
  is_Some (PRE_BUILD_CMDS analyzer_tables !! make_id "arichornlover/YouTimeStamp") ∧
  ∃ out, main analyzer_tables elements tweakslist = Returned out ∧
    ∀ cfg, cfg ∈ out_config out → Cfg.pre_build_cmd cfg = None.
Proof.
  intros tweakslist. split; [by compute_done|].
  eexists. split; [by vm_compute|].
  apply (main_pre_build_cmd_moot analyzer_tables elements tweakslist);
    [by compute_done|by vm_compute].
Defined.

(** X16 on YouPiP listed without YTVideoOverlay. *)
Lemma analyzer_warning_iff_witness :
  ∃ out, main analyzer_tables elements ["PoomSmart/YouPiP"] = Returned out ∧
    out_cycle_warning out = true ∧
    acyclic (out_config out) ∧
    (out_cycle_warning out = true ↔
     ("ytvideooverlay" ∉ make_id <$> out_tweakslist out) ∧
     ∃ repo, repo ∈ out_tweakslist out ∧
             is_Some (KNOWN_DEPENDENCIES analyzer_tables !! make_id repo)).
Proof.
  eexists. split; [by vm_compute|]. split; [by vm_compute|].
  apply (analyzer_warning_iff elements set_iter_spec_elements ["PoomSmart/YouPiP"]).
  by vm_compute.
Defined.

End RunsMore.
